(** * Security utilities of the backend ([backend/src/utils/security.py])

    A shallow embedding of the password policy, the secret manager, the
    rate limiter, the token generator and the constant-time comparison
    of [security.py], with the properties its specification states about
    them and further properties of the code; with them, the model
    fallback of the enrichment service ([backend/src/services/ai.py])
    and the reader of pinned requirements
    ([backend/scripts/update_dependencies.py]).

    Conventions of the embedding.
    - A Python [str] is the list of its code points ([N]); [bytes] is a
      list of [Byte.byte]; Python's unbounded [int] is [Z].
    - A [datetime] is the number of microseconds since the epoch and a
      [timedelta] a number of microseconds, both in [Z]: their arithmetic
      and comparisons are exact on that representation.
    - A method that mutates [self] returns the new object next to its
      result; a method that may raise returns a [result].
    - What a method reads from the outside world (the clock, a fresh key,
      the cipher's nonce) is an explicit argument, in the order the
      method reads it.
    - Libraries outside the repository are either interfaces with the
      laws the code relies on ([Fernet], the Unicode character tables) or
      written out from their standard (UTF-8, SHA-256).

    The first part of the file is the embedding, the second its
    properties. *)

From Stdlib Require Import ZArith NArith List String Ascii Lia DecimalString.
From Stdlib.Strings Require Import Byte.
From stdpp Require Import gmap list.

Local Open Scope Z_scope.

(** ** Python values *)

(** [str]: a sequence of Unicode code points. *)
Definition str : Type := list N.

(** [bytes]. *)
Definition bytes : Type := list byte.

(** A [str] literal of the source, written as a Rocq string (ASCII). *)
Fixpoint py (s : string) : str :=
  match s with
  | EmptyString => []
  | String a s' => N_of_ascii a :: py s'
  end.

(** [f"{n}"] for an [int]: its decimal representation. *)
Definition format_int (n : Z) : str := py (NilZero.string_of_int (Z.to_int n)).

(** [len(s)]. *)
Definition len {A} (s : list A) : Z := Z.of_nat (length s).

(** [any(f(c) for c in s)]. *)
Definition any {A} (f : A → bool) (s : list A) : bool := existsb f s.

(** The exceptions the modelled methods can raise. *)
Inductive exn : Type :=
  | ValueError (msg : str)
  | AttributeError
  | UnicodeEncodeError
  | UnicodeDecodeError
  | InvalidToken.

(** The outcome of a call: a returned value or a raised exception. *)
Inductive result (A : Type) : Type :=
  | Ok (a : A)
  | Raise (e : exn).
Arguments Ok {A} a.
Arguments Raise {A} e.

#[global] Instance result_ret : MRet result := λ A a, Ok a.

#[global] Instance result_bind : MBind result := λ A B k r,
  match r with
  | Ok a => k a
  | Raise e => Raise e
  end.

(** ** Password policy *)

(** The character classes of [str.isdigit], [str.isalnum], [str.isupper]
    and [str.islower] on one code point. They are tables of the Unicode
    character database of the Python runtime, which is not part of the
    repository: the policy is stated over any such tables. *)
Class UnicodeDB : Type := {
  isdigit : N → bool;
  isalnum : N → bool;
  isupper : N → bool;
  islower : N → bool
}.

Module PasswordPolicy.

Record t : Type := {
  min_length : Z;
  require_numbers : bool;
  require_symbols : bool;
  require_uppercase : bool;
  require_lowercase : bool
}.

(** The field defaults of the pydantic model. *)
Definition default : t := {|
  min_length := 12;
  require_numbers := true;
  require_symbols := true;
  require_uppercase := true;
  require_lowercase := true
|}.

Definition validate_password `{UnicodeDB} (self : t) (password : str)
  : bool * option str :=
  if len password <? min_length self then
    (false, Some (py "Password must be at least "
                    ++ format_int (min_length self) ++ py " characters"))
  else if require_numbers self && negb (any isdigit password) then
    (false, Some (py "Password must contain at least one number"))
  else if require_symbols self && negb (any (λ c, negb (isalnum c)) password) then
    (false, Some (py "Password must contain at least one symbol"))
  else if require_uppercase self && negb (any isupper password) then
    (false, Some (py "Password must contain at least one uppercase letter"))
  else if require_lowercase self && negb (any islower password) then
    (false, Some (py "Password must contain at least one lowercase letter"))
  else
    (true, None).

(** *** The policy as the specification words it

    Five rules in a fixed order; a rule is configured or not; the
    evaluation reports the first configured rule the password violates. *)
Inductive rule : Type :=
  | MinLength | HasDigit | HasSymbol | HasUppercase | HasLowercase.

Definition rules_in_order : list rule :=
  [MinLength; HasDigit; HasSymbol; HasUppercase; HasLowercase].

Definition configured (self : t) (r : rule) : bool :=
  match r with
  | MinLength => true
  | HasDigit => require_numbers self
  | HasSymbol => require_symbols self
  | HasUppercase => require_uppercase self
  | HasLowercase => require_lowercase self
  end.

Definition passes `{UnicodeDB} (self : t) (password : str) (r : rule) : bool :=
  match r with
  | MinLength => min_length self <=? len password
  | HasDigit => existsb isdigit password
  | HasSymbol => existsb (λ c, negb (isalnum c)) password
  | HasUppercase => existsb isupper password
  | HasLowercase => existsb islower password
  end.

Definition violated `{UnicodeDB} (self : t) (password : str) (r : rule) : bool :=
  configured self r && negb (passes self password r).

Definition first_violation `{UnicodeDB} (self : t) (password : str) : option rule :=
  find (violated self password) rules_in_order.

(** The failure reason the source gives for each rule. *)
Definition reason (self : t) (r : rule) : str :=
  match r with
  | MinLength =>
      py "Password must be at least " ++ format_int (min_length self)
        ++ py " characters"
  | HasDigit => py "Password must contain at least one number"
  | HasSymbol => py "Password must contain at least one symbol"
  | HasUppercase => py "Password must contain at least one uppercase letter"
  | HasLowercase => py "Password must contain at least one lowercase letter"
  end.

End PasswordPolicy.

(** The ASCII part of the character tables, for the examples. *)
Definition in_range (lo hi c : N) : bool := ((lo <=? c) && (c <=? hi))%N.

Definition ascii_tables : UnicodeDB := {|
  isdigit c := in_range 48 57 c;
  isalnum c := in_range 48 57 c || in_range 65 90 c || in_range 97 122 c;
  isupper c := in_range 65 90 c;
  islower c := in_range 97 122 c
|}.

(** ** The UTF-8 codec behind [str.encode()] and [bytes.decode()]

    Both calls of the source use the default codec, strict UTF-8: encoding
    raises on a surrogate code point, decoding on any ill-formed
    sequence. *)
Module Utf8.
Local Open Scope N_scope.

Definition byte_of_N (n : N) : byte :=
  match Byte.of_N n with
  | Some b => b
  | None => x00
  end.

Definition is_surrogate (c : N) : bool := (0xD800 <=? c) && (c <=? 0xDFFF).

Definition encode_char (c : N) : option bytes :=
  if c <? 0x80 then Some [byte_of_N c]
  else if c <? 0x800 then
    Some [byte_of_N (0xC0 + c / 64); byte_of_N (0x80 + c mod 64)]
  else if c <? 0x10000 then
    if is_surrogate c then None
    else Some [byte_of_N (0xE0 + c / 4096);
               byte_of_N (0x80 + (c / 64) mod 64);
               byte_of_N (0x80 + c mod 64)]
  else if c <? 0x110000 then
    Some [byte_of_N (0xF0 + c / 262144);
          byte_of_N (0x80 + (c / 4096) mod 64);
          byte_of_N (0x80 + (c / 64) mod 64);
          byte_of_N (0x80 + c mod 64)]
  else None.

Fixpoint encode_chars (s : str) : option bytes :=
  match s with
  | [] => Some []
  | c :: s' =>
      match encode_char c, encode_chars s' with
      | Some b, Some bs => Some (b ++ bs)
      | _, _ => None
      end
  end.

(** A continuation byte [10xxxxxx]. *)
Definition is_cont (b : byte) : bool :=
  (0x80 <=? Byte.to_N b) && (Byte.to_N b <? 0xC0).

Definition payload (b : byte) : N := Byte.to_N b - 0x80.

Fixpoint decode_bytes (bs : bytes) : option str :=
  match bs with
  | [] => Some []
  | b0 :: r0 =>
      let n0 := Byte.to_N b0 in
      if n0 <? 0x80 then
        match decode_bytes r0 with Some s => Some (n0 :: s) | None => None end
      else if (0xC0 <=? n0) && (n0 <? 0xE0) then
        match r0 with
        | b1 :: r1 =>
            let c := (n0 - 0xC0) * 64 + payload b1 in
            if is_cont b1 && (0x80 <=? c) then
              match decode_bytes r1 with Some s => Some (c :: s) | None => None end
            else None
        | _ => None
        end
      else if (0xE0 <=? n0) && (n0 <? 0xF0) then
        match r0 with
        | b1 :: b2 :: r2 =>
            let c := (n0 - 0xE0) * 4096 + payload b1 * 64 + payload b2 in
            if is_cont b1 && is_cont b2 && (0x800 <=? c) && negb (is_surrogate c) then
              match decode_bytes r2 with Some s => Some (c :: s) | None => None end
            else None
        | _ => None
        end
      else if (0xF0 <=? n0) && (n0 <? 0xF8) then
        match r0 with
        | b1 :: b2 :: b3 :: r3 =>
            let c := (n0 - 0xF0) * 262144 + payload b1 * 4096
                     + payload b2 * 64 + payload b3 in
            if is_cont b1 && is_cont b2 && is_cont b3
               && (0x10000 <=? c) && (c <? 0x110000) then
              match decode_bytes r3 with Some s => Some (c :: s) | None => None end
            else None
        | _ => None
        end
      else None
  end.

End Utf8.

(** [s.encode()]. *)
Definition encode (s : str) : result bytes :=
  match Utf8.encode_chars s with
  | Some b => Ok b
  | None => Raise UnicodeEncodeError
  end.

(** [b.decode()]. *)
Definition decode (b : bytes) : result str :=
  match Utf8.decode_bytes b with
  | Some s => Ok s
  | None => Raise UnicodeDecodeError
  end.

(** ** The cipher of [cryptography.fernet]

    [Fernet] is an external library. The secret manager uses three of its
    operations: [Fernet.generate_key()], whose result is an argument of
    the methods below, [Fernet(key).encrypt] and [Fernet(key).decrypt].
    The class states what the manager relies on: a token decrypts, under
    the key that made it, to the plaintext it was made from, and a token
    is URL-safe base64 text, hence ASCII. [nonce] stands for what
    [encrypt] draws by itself (the time stamp and the initialisation
    vector of the token). [fernet_decrypt] is [None] where the library
    raises [InvalidToken]. *)
Class Fernet : Type := {
  key : Type;
  nonce : Type;
  fernet_encrypt : key → nonce → bytes → bytes;
  fernet_decrypt : key → bytes → option bytes;
  fernet_decrypt_encrypt k n m :
    fernet_decrypt k (fernet_encrypt k n m) = Some m;
  fernet_token_ascii k n m :
    Forall (λ b, (Byte.to_N b < 0x80)%N) (fernet_encrypt k n m)
}.

(** Authentication of tokens, as an idealised cipher provides it: a token
    made under one key is rejected under any other key (its HMAC does not
    verify). *)
Class FernetAuthentic `{Fernet} : Prop :=
  fernet_wrong_key k k' n m :
    k ≠ k' → fernet_decrypt k' (fernet_encrypt k n m) = None.

(** [timedelta(days=d)] and [timedelta(minutes=m)], in microseconds. *)
Definition days (d : Z) : Z := d * 86400 * 1000000.
Definition minutes (m : Z) : Z := m * 60 * 1000000.

(** ** Secret manager *)
Module SecretManager.
Section defs.
Context {cipher : Fernet}.

Record t : Type := {
  _fernet : option key;
  _key_created : option Z;
  _rotation_interval : Z
}.

Definition __init__ : t := {|
  _fernet := None;
  _key_created := None;
  _rotation_interval := days 30
|}.

(** [_create_key]: [k] is the result of [Fernet.generate_key()] and [now]
    the clock reading that follows it. *)
Definition _create_key (self : t) (k : key) (now : Z) : t := {|
  _fernet := Some k;
  _key_created := Some now;
  _rotation_interval := _rotation_interval self
|}.

(** [_should_rotate]: a [datetime] is always truthy, so
    [not self._key_created] holds exactly for [None]. The clock is read
    only when a key exists. *)
Definition _should_rotate (self : t) (now : Z) : bool :=
  match _key_created self with
  | None => true
  | Some created => _rotation_interval self <? now - created
  end.

(** What one call of [encrypt] reads from the outside, in order: the
    clock in [_should_rotate], the generated key and the clock in
    [_create_key], and the nonce of the cipher. *)
Record reads : Type := {
  now_check : Z;
  new_key : key;
  now_create : Z;
  enc_nonce : nonce
}.

(** The rotation decision of [encrypt], with the state it leaves. *)
Definition rotate_if_due (self : t) (w : reads) : t :=
  if _should_rotate self (now_check w)
  then _create_key self (new_key w) (now_create w)
  else self.

(** [encrypt]. The attribute [self._fernet.encrypt] is looked up before
    its argument [data.encode()] is evaluated. *)
Definition encrypt (self : t) (w : reads) (data : str) : t * result str :=
  let self' := rotate_if_due self w in
  (self',
   match _fernet self' with
   | None => Raise AttributeError
   | Some k =>
       plain ← encode data;
       decode (fernet_encrypt k (enc_nonce w) plain)
   end).

(** [decrypt]. *)
Definition decrypt (self : t) (encrypted_data : str) : result str :=
  match _fernet self with
  | None => Raise (ValueError (py "No encryption key available"))
  | Some k =>
      token ← encode encrypted_data;
      match fernet_decrypt k token with
      | Some plain => decode plain
      | None => Raise InvalidToken
      end
  end.

(** The state after a sequence of [encrypt] calls. *)
Fixpoint encrypt_all (self : t) (calls : list (reads * str)) : t :=
  match calls with
  | [] => self
  | (w, data) :: calls' => encrypt_all (fst (encrypt self w data)) calls'
  end.

(** A key exists whenever a creation time is recorded: it holds of every
    state that [encrypt] calls produce from [__init__]. *)
Definition consistent (self : t) : Prop :=
  is_Some (_key_created self) → is_Some (_fernet self).

(** No call of the sequence replaces the key. *)
Fixpoint no_rotation (self : t) (calls : list (reads * str)) : bool :=
  match calls with
  | [] => true
  | (w, data) :: calls' =>
      negb (_should_rotate self (now_check w))
      && no_rotation (fst (encrypt self w data)) calls'
  end.

(** The last clock reading of an [encrypt] call on [self]. *)
Definition last_reading (self : t) (w : reads) : Z :=
  if _should_rotate self (now_check w) then now_create w else now_check w.

End defs.
Arguments t {_}.
Arguments reads {_}.
End SecretManager.

(** ** SHA-256 and the digest comparison

    [hashlib.sha256] and [hmac.compare_digest] belong to the Python
    standard library. SHA-256 is written out from FIPS 180-4 on 32-bit
    words in [Z]; the comparison is the accumulating loop of the
    interpreter, which looks at every byte whatever it has seen before. *)
Module Sha256.
Local Open Scope Z_scope.

(** Reduction to 32 bits. *)
Definition word (x : Z) : Z := x mod 2 ^ 32.

Definition rotr (n x : Z) : Z :=
  Z.lor (Z.shiftr x n) (word (Z.shiftl x (32 - n))).

Definition Ch (x y z : Z) : Z :=
  Z.lxor (Z.land x y) (Z.land (Z.lxor x 0xffffffff) z).

Definition Maj (x y z : Z) : Z :=
  Z.lxor (Z.lxor (Z.land x y) (Z.land x z)) (Z.land y z).

Definition Sigma0 (x : Z) : Z := Z.lxor (Z.lxor (rotr 2 x) (rotr 13 x)) (rotr 22 x).
Definition Sigma1 (x : Z) : Z := Z.lxor (Z.lxor (rotr 6 x) (rotr 11 x)) (rotr 25 x).
Definition sigma0 (x : Z) : Z := Z.lxor (Z.lxor (rotr 7 x) (rotr 18 x)) (Z.shiftr x 3).
Definition sigma1 (x : Z) : Z := Z.lxor (Z.lxor (rotr 17 x) (rotr 19 x)) (Z.shiftr x 10).

(** The first sixty-four primes. *)
Definition primes : list Z :=
  [2; 3; 5; 7; 11; 13; 17; 19; 23; 29; 31; 37; 41; 43; 47; 53;
   59; 61; 67; 71; 73; 79; 83; 89; 97; 101; 103; 107; 109; 113; 127; 131;
   137; 139; 149; 151; 157; 163; 167; 173; 179; 181; 191; 193; 197; 199; 211; 223;
   227; 229; 233; 239; 241; 251; 257; 263; 269; 271; 277; 281; 283; 293; 307; 311].

(** The largest [r + d], [d < 2 ^ bits], whose cube is at most [n]. *)
Fixpoint cube_root (bits : nat) (n r : Z) : Z :=
  match bits with
  | O => r
  | S bits' =>
      let r' := r + 2 ^ Z.of_nat bits' in
      cube_root bits' n (if r' ^ 3 <=? n then r' else r)
  end.

(** The round constants: the first 32 bits of the fractional parts of
    the cube roots of the primes. *)
Definition K : list Z :=
  Eval vm_compute in map (λ p, word (cube_root 40 (p * 2 ^ 96) 0)) primes.

Record state : Type := {
  h0 : Z; h1 : Z; h2 : Z; h3 : Z; h4 : Z; h5 : Z; h6 : Z; h7 : Z
}.

(** The first 32 bits of the fractional part of the square root of [p]. *)
Definition root_bits (p : Z) : Z := word (Z.sqrt (p * 2 ^ 64)).

(** The initial hash value, from the first eight primes. *)
Definition initial : state :=
  Eval vm_compute in
  {| h0 := root_bits 2; h1 := root_bits 3; h2 := root_bits 5; h3 := root_bits 7;
     h4 := root_bits 11; h5 := root_bits 13; h6 := root_bits 17; h7 := root_bits 19 |}.

(** [n] bytes of [x], most significant first. *)
Fixpoint big_endian (n : nat) (x : Z) : list Z :=
  match n with
  | O => []
  | S n' => (x / 2 ^ (8 * Z.of_nat n')) mod 256 :: big_endian n' x
  end.

(** The message, a one bit, zeros up to 56 modulo 64 bytes, and the
    length of the message in bits on 8 bytes. *)
Definition pad (m : list Z) : list Z :=
  let l := Z.of_nat (length m) in
  m ++ [0x80] ++ repeat 0 (Z.to_nat ((55 - l) mod 64)) ++ big_endian 8 (8 * l).

Fixpoint words_of (block : list Z) : list Z :=
  match block with
  | b0 :: b1 :: b2 :: b3 :: r =>
      (b0 * 2 ^ 24 + b1 * 2 ^ 16 + b2 * 2 ^ 8 + b3) :: words_of r
  | _ => []
  end.

(** [n] more words of the message schedule; [w] holds the words so far,
    the latest first. *)
Fixpoint extend (n : nat) (w : list Z) : list Z :=
  match n with
  | O => w
  | S n' =>
      extend n'
        (word (sigma1 (nth 1 w 0) + nth 6 w 0 + sigma0 (nth 14 w 0) + nth 15 w 0) :: w)
  end.

Definition schedule (block : list Z) : list Z :=
  rev (extend 48 (rev (words_of block))).

Definition round (s : state) (kw : Z * Z) : state :=
  let t1 := h7 s + Sigma1 (h4 s) + Ch (h4 s) (h5 s) (h6 s) + fst kw + snd kw in
  let t2 := Sigma0 (h0 s) + Maj (h0 s) (h1 s) (h2 s) in
  {| h0 := word (t1 + t2); h1 := h0 s; h2 := h1 s; h3 := h2 s;
     h4 := word (h3 s + t1); h5 := h4 s; h6 := h5 s; h7 := h6 s |}.

Definition compress (s : state) (block : list Z) : state :=
  let r := fold_left round (combine K (schedule block)) s in
  {| h0 := word (h0 s + h0 r); h1 := word (h1 s + h1 r);
     h2 := word (h2 s + h2 r); h3 := word (h3 s + h3 r);
     h4 := word (h4 s + h4 r); h5 := word (h5 s + h5 r);
     h6 := word (h6 s + h6 r); h7 := word (h7 s + h7 r) |}.

(** Absorbs the bytes [bs]; [buf] is the block being filled. A padded
    message ends on a block boundary. *)
Fixpoint absorb (s : state) (buf : list Z) (bs : list Z) : state :=
  match bs with
  | [] => s
  | x :: bs' =>
      if (length (buf ++ [x]) =? 64)%nat
      then absorb (compress s (buf ++ [x])) [] bs'
      else absorb s (buf ++ [x]) bs'
  end.

Definition byte_of_Z (x : Z) : byte := Utf8.byte_of_N (Z.to_N x).

Definition digest (s : state) : bytes :=
  map byte_of_Z
    (big_endian 4 (h0 s) ++ big_endian 4 (h1 s) ++ big_endian 4 (h2 s)
     ++ big_endian 4 (h3 s) ++ big_endian 4 (h4 s) ++ big_endian 4 (h5 s)
     ++ big_endian 4 (h6 s) ++ big_endian 4 (h7 s)).

(** [hashlib.sha256(m).digest()]. *)
Definition sha256 (m : bytes) : bytes :=
  digest (absorb initial [] (pad (map (λ b, Z.of_N (Byte.to_N b)) m))).

(** One turn of the comparison loop: [acc] gathers the bits in which the
    pairs seen so far differ. *)
Definition mix (acc : Z) (xy : byte * byte) : Z :=
  Z.lor acc (Z.lxor (Z.of_N (Byte.to_N (fst xy))) (Z.of_N (Byte.to_N (snd xy)))).

(** [hmac.compare_digest(a, b)]: when the lengths differ, the loop runs
    over [b] against itself with the result preset to a mismatch. *)
Definition compare_digest (a b : bytes) : bool :=
  let same_length := (length a =? length b)%nat in
  let left := if same_length then a else b in
  let start := if same_length then 0 else 1 in
  fold_left mix (combine left b) start =? 0.

End Sha256.

(** ** Configuration models *)
Module KeyRotation.
Record t : Type := {
  enabled : bool;
  interval : Z;
  algorithm : str;
  key_length : Z
}.
Definition default : t := {|
  enabled := true;
  interval := days 30;
  algorithm := py "AES-256-GCM";
  key_length := 256
|}.
End KeyRotation.

Module RateLimit.
Record t : Type := {
  window : Z;
  max_requests : Z;
  skip_paths : list str
}.
Definition default : t := {|
  window := minutes 15;
  max_requests := 100;
  skip_paths := [py "/health"; py "/metrics"]
|}.
End RateLimit.

Module SecurityConfig.
Record t : Type := {
  key_rotation : KeyRotation.t;
  password_policy : PasswordPolicy.t;
  rate_limit : RateLimit.t;
  max_login_attempts : Z;
  lockout_duration : Z
}.
Definition default : t := {|
  key_rotation := KeyRotation.default;
  password_policy := PasswordPolicy.default;
  rate_limit := RateLimit.default;
  max_login_attempts := 5;
  lockout_duration := minutes 15
|}.
End SecurityConfig.

(** ** Security service *)
Module SecurityService.

(** A value of [_failed_attempts]: the dict [{"count": .., "timestamp": ..}]. *)
Record attempt : Type := {
  count : Z;
  timestamp : Z
}.

Section defs.
Context {cipher : Fernet}.

Record t : Type := {
  config : SecurityConfig.t;
  secret_manager : SecretManager.t;
  _failed_attempts : gmap str attempt
}.

Definition __init__ (config : SecurityConfig.t) (secret_manager : SecretManager.t) : t := {|
  config := config;
  secret_manager := secret_manager;
  _failed_attempts := ∅
|}.

Definition validate_password `{UnicodeDB} (self : t) (password : str)
  : bool * option str :=
  PasswordPolicy.validate_password (SecurityConfig.password_policy (config self)) password.

Definition set_failed_attempts (self : t) (m : gmap str attempt) : t := {|
  config := config self;
  secret_manager := secret_manager self;
  _failed_attempts := m
|}.

Definition limits (self : t) : RateLimit.t := SecurityConfig.rate_limit (config self).

(** [f"{ip}:{path}"]. *)
Definition rate_key (path ip : str) : str := ip ++ py ":" ++ path.

(** The dict comprehension of [check_rate_limit]: the entries of
    [_failed_attempts] whose window has not elapsed at [now]. *)
Definition clean_up (self : t) (now : Z) : gmap str attempt :=
  filter (λ kv : str * attempt,
            now - timestamp (snd kv) < RateLimit.window (limits self))
         (_failed_attempts self).

(** [check_rate_limit]; [now] is the clock reading, taken only when the
    path is not skipped. The result is [true] when the request is let
    through. *)
Definition check_rate_limit (self : t) (path ip : str) (now : Z) : t * bool :=
  if bool_decide (path ∈ RateLimit.skip_paths (limits self)) then (self, true)
  else
    let key := rate_key path ip in
    let attempts := clean_up self now in
    match attempts !! key with
    | None =>
        (set_failed_attempts self
           (<[key := {| count := 1; timestamp := now |}]> attempts), true)
    | Some entry =>
        if RateLimit.max_requests (limits self) <=? count entry then
          (set_failed_attempts self attempts, false)
        else
          (set_failed_attempts self
             (<[key := {| count := count entry + 1;
                          timestamp := timestamp entry |}]> attempts), true)
    end.

(** Successive calls for one path and address, at the given clock
    readings: the final state and the result of each call. *)
Fixpoint check_rate_limit_calls (self : t) (path ip : str) (times : list Z)
  : t * list bool :=
  match times with
  | [] => (self, [])
  | now :: times' =>
      let '(self1, r) := check_rate_limit self path ip now in
      let '(self2, rs) := check_rate_limit_calls self1 path ip times' in
      (self2, r :: rs)
  end.

(** [constant_time_compare]: the digests of the two encoded values,
    compared by [hmac.compare_digest]. *)
Definition constant_time_compare (self : t) (val1 val2 : str) : result bool :=
  b1 ← encode val1;
  b2 ← encode val2;
  mret (Sha256.compare_digest (Sha256.sha256 b1) (Sha256.sha256 b2)).

End defs.
Arguments t {_}.
End SecurityService.

(** ** Counting

    Used to compare the number of texts with the number of digests. *)

(** All lists of length [n] over the letters [letters]. *)
Fixpoint words {A} (letters : list A) (n : nat) : list (list A) :=
  match n with
  | O => [[]]
  | S n' => a ← letters; (a ::.) <$> words letters n'
  end.

(** Every byte. *)
Definition all_bytes : bytes := (λ n, Utf8.byte_of_N (N.of_nat n)) <$> seq 0 256.

(** ** A cipher for the examples

    A model of the interface [Fernet] on which the theorems can be run:
    a key is a byte string, and a token is the key in hexadecimal, a dot,
    and the plaintext in hexadecimal. It keeps nothing secret; it has the
    functional behaviour the secret manager relies on. *)
Module HexCipher.
Import Utf8.
Local Open Scope N_scope.

Definition nibble (n : N) : byte := byte_of_N (0x41 + n).

Definition hex_byte (b : byte) : bytes :=
  [nibble (Byte.to_N b / 16); nibble (Byte.to_N b mod 16)].

Fixpoint hex (m : bytes) : bytes :=
  match m with
  | [] => []
  | b :: m' => hex_byte b ++ hex m'
  end.

Definition unnibble (c : byte) : option N :=
  let n := Byte.to_N c in
  if (0x41 <=? n) && (n <? 0x51) then Some (n - 0x41) else None.

Fixpoint unhex (t : bytes) : option bytes :=
  match t with
  | [] => Some []
  | h :: l :: t' =>
      match unnibble h, unnibble l, unhex t' with
      | Some a, Some b, Some m => Some (byte_of_N (a * 16 + b) :: m)
      | _, _, _ => None
      end
  | _ => None
  end.

Definition dot : byte := "."%byte.

(** [strip p t]: the rest of [t] after its prefix [p], if [p] is one. *)
Fixpoint strip (p t : bytes) : option bytes :=
  match p, t with
  | [], _ => Some t
  | a :: p', b :: t' => if Byte.eqb a b then strip p' t' else None
  | _ :: _, [] => None
  end.

Definition seal (k : bytes) (_ : unit) (m : bytes) : bytes :=
  hex k ++ dot :: hex m.

Definition open (k : bytes) (token : bytes) : option bytes :=
  match strip (hex k ++ [dot]) token with
  | Some body => unhex body
  | None => None
  end.

End HexCipher.

(** ** Requests in sequence *)

(** A request to the rate limiter: the path, the address, and the clock
    reading of its call. *)
Definition request : Type := str * str * Z.

Section traffic.
Import SecurityService.
Context {cipher : Fernet}.

(** [check_rate_limit] on each request in turn: the final state and the
    verdicts. *)
Fixpoint check_rate_limit_trace (self : SecurityService.t) (requests : list request)
  : SecurityService.t * list bool :=
  match requests with
  | [] => (self, [])
  | (path, ip, now) :: requests' =>
      let '(self1, r) := check_rate_limit self path ip now in
      let '(self2, rs) := check_rate_limit_trace self1 requests' in
      (self2, r :: rs)
  end.

(** The request is counted under [key]: its path is not one of the
    skipped paths [skip] and its key is [key]. *)
Definition counted (skip : list str) (key : str) (r : request) : bool :=
  bool_decide (r.1.1 ∉ skip) && bool_decide (rate_key r.1.1 r.1.2 = key).

(** How many requests are counted under [key], and how many of them
    passed. *)
Definition asked (skip : list str) (key : str) (requests : list request) : nat :=
  length (filter (λ r, counted skip key r = true) requests).

Definition passed (skip : list str) (key : str)
    (requests : list request) (verdicts : list bool) : nat :=
  length (filter (λ rv : request * bool, counted skip key rv.1 && rv.2 = true)
            (zip requests verdicts)).

(** Every stored count is between 1 and the limit (or 1, if the limit is
    lower). *)
Definition counts_bounded (self : SecurityService.t) : Prop :=
  ∀ k e, _failed_attempts self !! k = Some e →
         1 ≤ count e ≤ Z.max 1 (RateLimit.max_requests (limits self)).

End traffic.

(** ** Token generation

    [generate_token] forwards to [secrets.token_urlsafe], which is
    [base64.urlsafe_b64encode(token_bytes(n)).rstrip(b"=").decode("ascii")]
    in the Python standard library; Base64 with the URL-safe alphabet
    is written out from RFC 4648. *)
Module Base64.
Import Utf8.
Local Open Scope N_scope.

(** The byte of the [i]-th symbol of the URL-safe alphabet:
    [A-Z], [a-z], [0-9], [-], [_]. *)
Definition symbol (i : N) : byte :=
  byte_of_N
    (if i <? 26 then 65 + i
     else if i <? 52 then 97 + (i - 26)
     else if i <? 62 then 48 + (i - 52)
     else if i =? 62 then 45
     else 95).

Definition pad : byte := "="%byte.

(** [base64.urlsafe_b64encode]. *)
Fixpoint urlsafe_b64encode (bs : bytes) : bytes :=
  match bs with
  | [] => []
  | [a] =>
      [symbol (Byte.to_N a / 4); symbol (Byte.to_N a mod 4 * 16); pad; pad]
  | [a; b] =>
      [symbol (Byte.to_N a / 4);
       symbol (Byte.to_N a mod 4 * 16 + Byte.to_N b / 16);
       symbol (Byte.to_N b mod 16 * 4); pad]
  | a :: b :: c :: rest =>
      symbol (Byte.to_N a / 4)
      :: symbol (Byte.to_N a mod 4 * 16 + Byte.to_N b / 16)
      :: symbol (Byte.to_N b mod 16 * 4 + Byte.to_N c / 64)
      :: symbol (Byte.to_N c mod 64)
      :: urlsafe_b64encode rest
  end.

(** [bs.rstrip(b"=")]. *)
Fixpoint rstrip_pad (bs : bytes) : bytes :=
  match bs with
  | [] => []
  | b :: bs' =>
      match rstrip_pad bs' with
      | [] => if Byte.eqb b pad then [] else [b]
      | kept => b :: kept
      end
  end.

(** [bs.decode("ascii")]. *)
Definition decode_ascii (bs : bytes) : result str :=
  if forallb (λ b, Byte.to_N b <? 0x80) bs
  then Ok (map Byte.to_N bs)
  else Raise UnicodeDecodeError.

(** The characters of a URL-safe token. *)
Definition url_safe (c : N) : bool :=
  in_range 65 90 c || in_range 97 122 c || in_range 48 57 c
  || (c =? 45) || (c =? 95).

(** The encoding once the padding is stripped. *)
Definition stripped (bs : bytes) : bytes := rstrip_pad (urlsafe_b64encode bs).

End Base64.

(** [generate_token]; [random] is what the entropy source returns for
    [length] bytes. A negative [length] is refused by the source. *)
Definition generate_token {cipher : Fernet} (self : SecurityService.t)
    (length : Z) (random : bytes) : result str :=
  if length <? 0 then Raise (ValueError (py "negative argument not allowed"))
  else Base64.decode_ascii (Base64.rstrip_pad (Base64.urlsafe_b64encode random)).

(** ** The enrichment service ([backend/src/services/ai.py])

    [AIService] holds two chat models and one chain, whose [llm] starts
    as the OpenAI model. What a call of [chain.arun] gives is read from
    the outside: the parsed update, or the exception it raises. *)
Module AIService.

Inductive llm : Type := OpenAI | Anthropic.

(** The exceptions that are not an [Exception], which [except Exception]
    lets through. *)
Inductive base_exception : Type :=
  | CancelledError
  | KeyboardInterrupt
  | SystemExit
  | GeneratorExit.

(** The end of one attempt, the body of a [try]: the update, an
    [Exception] (its [str]), or an exception that is not one. *)
Inductive reply (A : Type) : Type :=
  | Returned (update : A)
  | Failed (message : str)
  | Aborted (e : base_exception).
Arguments Returned {A} update.
Arguments Failed {A} message.
Arguments Aborted {A} e.

(** The end of [enrich_node]: the update, the [Exception] it raises, or
    the exception of an attempt that went through uncaught. *)
Inductive outcome (A : Type) : Type :=
  | Return (update : A)
  | RaiseException (message : str)
  | Propagate (e : base_exception).
Arguments Return {A} update.
Arguments RaiseException {A} message.
Arguments Propagate {A} e.

(** The part of the service that [enrich_node] changes: [self.chain.llm]. *)
Record t : Type := { chain_llm : llm }.

Definition __init__ : t := {| chain_llm := OpenAI |}.

(** One call of [enrich_node]: the replies of the models to its two
    possible [arun] calls. *)
Record replies (A : Type) : Type := {
  first : llm → reply A;
  second : llm → reply A
}.
Arguments first {A} _ _.
Arguments second {A} _ _.

(** [enrich_node]: the state it leaves, its end, and the models whose
    [arun] ran, in order. *)
Definition enrich_node {A} (self : t) (w : replies A) : t * outcome A * list llm :=
  match first w (chain_llm self) with
  | Returned update => (self, Return update, [chain_llm self])
  | Aborted b => (self, Propagate b, [chain_llm self])
  | Failed e =>
      let self' := {| chain_llm := Anthropic |} in
      match second w (chain_llm self') with
      | Returned update => (self', Return update, [chain_llm self; chain_llm self'])
      | Aborted b => (self', Propagate b, [chain_llm self; chain_llm self'])
      | Failed fallback_e =>
          (self',
           RaiseException
             (py "Failed to enrich node with both models: "
              ++ e ++ py ", " ++ fallback_e),
           [chain_llm self; chain_llm self'])
      end
  end.

(** Successive calls: the final state and all the models consulted. *)
Fixpoint enrich_nodes {A} (self : t) (calls : list (replies A)) : t * list llm :=
  match calls with
  | [] => (self, [])
  | w :: calls' =>
      let '(self1, _, asked1) := enrich_node self w in
      let '(self2, asked2) := enrich_nodes self1 calls' in
      (self2, asked1 ++ asked2)
  end.

End AIService.

(** ** Reading the pinned requirements
    ([backend/scripts/update_dependencies.py])

    [str.strip()] removes the characters for which [str.isspace] holds,
    another table of the Unicode database. *)
Class SpaceTable : Type := { isspace : N → bool }.

Module DependencyManager.
Section defs.
Context {spaces : SpaceTable}.

(** [s.lstrip()], [s.rstrip()] and [s.strip()]. *)
Fixpoint lstrip (s : str) : str :=
  match s with
  | [] => []
  | c :: s' => if isspace c then lstrip s' else s
  end.

Fixpoint rstrip (s : str) : str :=
  match s with
  | [] => []
  | c :: s' =>
      match rstrip s' with
      | [] => if isspace c then [] else [c]
      | kept => c :: kept
      end
  end.

Definition strip (s : str) : str := rstrip (lstrip s).

(** [s.startswith("#")]. *)
Definition is_comment (s : str) : bool :=
  match s with
  | c :: _ => (c =? 35)%N
  | [] => false
  end.

(** [s.split("==")]: the parts between the occurrences of ["=="], found
    from left to right; [part] is the part being read, backwards. *)
Fixpoint split_pin (s : str) (part : str) : list str :=
  match s with
  | [] => [rev part]
  | c :: s' =>
      match s' with
      | d :: s'' =>
          if ((c =? 61) && (d =? 61))%N
          then rev part :: split_pin s'' []
          else split_pin s' (c :: part)
      | [] => [rev (c :: part)]
      end
  end.

(** ["==" in s]. *)
Fixpoint has_pin (s : str) : bool :=
  match s with
  | c :: s' =>
      match s' with
      | d :: _ => ((c =? 61) && (d =? 61))%N || has_pin s'
      | [] => false
      end
  | [] => false
  end.

(** The loop of [_read_requirements] over the lines of the file, from
    the dictionary [deps]. The unpacking [pkg, version = ...] raises
    [ValueError] unless there are two parts. *)
Fixpoint read_lines (lines : list str) (deps : gmap str str) : result (gmap str str) :=
  match lines with
  | [] => Ok deps
  | line :: lines' =>
      let line := strip line in
      if negb (bool_decide (line = [])) && negb (is_comment line) then
        match split_pin line [] with
        | [pkg; version] => read_lines lines' (<[pkg := version]> deps)
        | [] | [_] =>
            Raise (ValueError (py "not enough values to unpack (expected 2, got 1)"))
        | _ => Raise (ValueError (py "too many values to unpack (expected 2)"))
        end
      else read_lines lines' deps
  end.

(** [_read_requirements], on the lines of the file. *)
Definition _read_requirements (lines : list str) : result (gmap str str) :=
  read_lines lines ∅.

(** A pin as the file spells it: [pkg==version] and a line feed. *)
Definition pin_line (pin : str * str) : str :=
  pin.1 ++ py "==" ++ pin.2 ++ [10%N].

(** A package name or a version without blanks and without [=]. *)
Definition plain (s : str) : Prop :=
  Forall (λ c, isspace c = false ∧ c ≠ 61%N) s.

End defs.
End DependencyManager.

(** ** Properties of the password policy *)

Section password_policy.
Import PasswordPolicy.
Context {tables : UnicodeDB}.

Lemma reason_inj self r1 r2 : reason self r1 = reason self r2 → r1 = r2.
Proof.
  destruct r1, r2; first [ reflexivity | cbn; discriminate ].
Qed.

Lemma first_violation_None self password :
  first_violation self password = None
  ↔ ∀ r, configured self r = true → passes self password r = true.
Proof.
  unfold first_violation, rules_in_order, violated. split.
  - intros Hfind r Hcfg.
    assert (Hnone : ∀ x, In x [MinLength; HasDigit; HasSymbol; HasUppercase; HasLowercase]
                         → configured self x && negb (passes self password x) = false)
      by (intros x; exact (find_none _ _ Hfind x)).
    specialize (Hnone r). rewrite Hcfg in Hnone. cbn [andb] in Hnone.
    apply negb_false_iff, Hnone. destruct r; cbn; tauto.
  - intros Hall. cbn [find].
    repeat match goal with
    | |- context [configured self ?r && negb (passes self password ?r)] =>
        let Hc := fresh in
        destruct (configured self r) eqn:Hc; cbn [andb];
        [ rewrite (Hall r Hc); cbn [negb] | ]
    end; reflexivity.
Qed.

(** C5. [validate_password] evaluates the rules in the fixed order
    length, digit, symbol, uppercase, lowercase, each only when it is
    configured: its result is the failure reason of the first configured
    rule that the password violates, and success when there is none;
    distinct rules have distinct reasons, so the reason identifies the
    rule; and it succeeds exactly when every configured rule passes. *)
Theorem validate_password_first_violation self password :
  validate_password self password
  = match first_violation self password with
    | Some r => (false, Some (reason self r))
    | None => (true, None)
    end
  ∧ (∀ r1 r2, reason self r1 = reason self r2 → r1 = r2)
  ∧ (fst (validate_password self password) = true
     ↔ ∀ r, configured self r = true → passes self password r = true).
Proof.
  assert (Heq : validate_password self password
                = match first_violation self password with
                  | Some r => (false, Some (reason self r))
                  | None => (true, None)
                  end).
  { unfold validate_password, first_violation, rules_in_order, violated, any.
    cbn [find configured passes andb].
    rewrite (Z.leb_antisym (len password) (min_length self)), negb_involutive.
    destruct (len password <? min_length self); [ reflexivity | ].
    destruct (require_numbers self && negb (existsb isdigit password));
      [ reflexivity | ].
    destruct (require_symbols self
              && negb (existsb (λ c, negb (isalnum c)) password));
      [ reflexivity | ].
    destruct (require_uppercase self && negb (existsb isupper password));
      [ reflexivity | ].
    destruct (require_lowercase self && negb (existsb islower password));
      reflexivity. }
  split; [ exact Heq | split; [ apply reason_inj | ] ].
  rewrite Heq, <- first_violation_None.
  destruct (first_violation self password); cbn; split; intros; congruence.
Qed.

End password_policy.

(** The specification's example: with minimum length 12, ["short1!"] is
    reported as too short, although it also lacks an uppercase letter. *)
Example validate_short1 :
  @PasswordPolicy.validate_password ascii_tables PasswordPolicy.default (py "short1!")
  = (false, Some (py "Password must be at least 12 characters")).
Proof. reflexivity. Qed.

Example validate_no_uppercase :
  @PasswordPolicy.validate_password ascii_tables PasswordPolicy.default
    (py "long-enough-1-but-lowercase")
  = (false, Some (py "Password must contain at least one uppercase letter")).
Proof. reflexivity. Qed.

(** ** Properties of the rate limiter *)

Section rate_limit.
Import SecurityService.
Context {cipher : Fernet}.
Implicit Types (self : SecurityService.t) (path ip : str) (now : Z).

Lemma clean_up_lookup_Some self now k e :
  clean_up self now !! k = Some e
  ↔ _failed_attempts self !! k = Some e
    ∧ now - timestamp e < RateLimit.window (limits self).
Proof. unfold clean_up. by rewrite map_lookup_filter_Some. Qed.

Lemma clean_up_lookup_None self now k :
  clean_up self now !! k = None
  ↔ ∀ e, _failed_attempts self !! k = Some e
         → RateLimit.window (limits self) ≤ now - timestamp e.
Proof.
  unfold clean_up. rewrite map_lookup_filter_None. split.
  - intros [Hn | Hn] e He; [ congruence | ].
    specialize (Hn e He). cbn in Hn. lia.
  - intros Hn. destruct (_failed_attempts self !! k) as [e|] eqn:He; [ right | by left ].
    intros x [= <-]. specialize (Hn e eq_refl). cbn. lia.
Qed.

(** A call on a skipped path. *)
Lemma check_rate_limit_skip self path ip now :
  path ∈ RateLimit.skip_paths (limits self) →
  check_rate_limit self path ip now = (self, true).
Proof.
  intros Hin. unfold check_rate_limit. by rewrite bool_decide_eq_true_2.
Qed.

(** A call with no live entry for its key. *)
Lemma check_rate_limit_fresh self path ip now :
  path ∉ RateLimit.skip_paths (limits self) →
  clean_up self now !! rate_key path ip = None →
  check_rate_limit self path ip now
  = (set_failed_attempts self
       (<[rate_key path ip := {| count := 1; timestamp := now |}]> (clean_up self now)),
     true).
Proof.
  intros Hskip Hnone. unfold check_rate_limit.
  rewrite bool_decide_eq_false_2 by done. cbn zeta. by rewrite Hnone.
Qed.

(** A call with a live entry below the limit. *)
Lemma check_rate_limit_below self path ip now e :
  path ∉ RateLimit.skip_paths (limits self) →
  clean_up self now !! rate_key path ip = Some e →
  count e < RateLimit.max_requests (limits self) →
  check_rate_limit self path ip now
  = (set_failed_attempts self
       (<[rate_key path ip := {| count := count e + 1; timestamp := timestamp e |}]>
          (clean_up self now)),
     true).
Proof.
  intros Hskip Hsome Hlt. unfold check_rate_limit.
  rewrite bool_decide_eq_false_2 by done. cbn zeta. rewrite Hsome.
  destruct (Z.leb_spec (RateLimit.max_requests (limits self)) (count e));
    [ lia | done ].
Qed.

(** A call with a live entry at the limit. *)
Lemma check_rate_limit_at_limit self path ip now e :
  path ∉ RateLimit.skip_paths (limits self) →
  clean_up self now !! rate_key path ip = Some e →
  RateLimit.max_requests (limits self) ≤ count e →
  check_rate_limit self path ip now
  = (set_failed_attempts self (clean_up self now), false).
Proof.
  intros Hskip Hsome Hle. unfold check_rate_limit.
  rewrite bool_decide_eq_false_2 by done. cbn zeta. rewrite Hsome.
  destruct (Z.leb_spec (RateLimit.max_requests (limits self)) (count e));
    [ done | lia ].
Qed.

(** No call changes the configuration. *)
Lemma check_rate_limit_config self path ip now :
  config (fst (check_rate_limit self path ip now)) = config self.
Proof.
  unfold check_rate_limit. case_bool_decide; [ done | ]. cbn zeta.
  destruct (clean_up self now !! rate_key path ip); [ | done ].
  by destruct (_ <=? _).
Qed.

(** A call for another key, while the entry of [key] is live, leaves
    that entry as it is. *)
Lemma check_rate_limit_other_key self path ip now key e :
  rate_key path ip ≠ key →
  _failed_attempts self !! key = Some e →
  now - timestamp e < RateLimit.window (limits self) →
  _failed_attempts (fst (check_rate_limit self path ip now)) !! key = Some e.
Proof.
  intros Hne He Hlive.
  assert (Hkept : clean_up self now !! key = Some e)
    by (by apply clean_up_lookup_Some).
  unfold check_rate_limit. case_bool_decide; [ done | ]. cbn zeta.
  destruct (clean_up self now !! rate_key path ip) as [e'|].
  - destruct (_ <=? _); cbn; [ done | by rewrite lookup_insert_ne ].
  - cbn. by rewrite lookup_insert_ne.
Qed.

(** The key does not separate the address from the path: two different
    pairs can share an entry. *)
Example rate_key_shared :
  rate_key (py "b:c") (py "a") = rate_key (py "c") (py "a:b").
Proof. reflexivity. Qed.

(** Calls for one key while its entry [(c, t0)] is live: the first
    [max_requests - c] of them pass and raise the count by one each, the
    rest are refused and leave the count alone. *)
Lemma check_rate_limit_calls_live times : ∀ self path ip t0 c,
  path ∉ RateLimit.skip_paths (limits self) →
  _failed_attempts self !! rate_key path ip = Some {| count := c; timestamp := t0 |} →
  c ≤ RateLimit.max_requests (limits self) →
  Forall (λ now, now - t0 < RateLimit.window (limits self)) times →
  let room := Z.to_nat (RateLimit.max_requests (limits self) - c) in
  let out := check_rate_limit_calls self path ip times in
  snd out = replicate (length times `min` room) true
            ++ replicate (length times - room) false
  ∧ config (fst out) = config self
  ∧ _failed_attempts (fst out) !! rate_key path ip
    = Some {| count := Z.min (c + len times) (RateLimit.max_requests (limits self));
              timestamp := t0 |}.
Proof.
  induction times as [|now times IH]; intros self path ip t0 c Hskip Hentry Hc Hwin.
  - cbn. unfold len. cbn. rewrite Z.add_0_r, Z.min_l by lia. done.
  - apply Forall_cons in Hwin as [Hnow Hwin].
    assert (Hlive : clean_up self now !! rate_key path ip
                    = Some {| count := c; timestamp := t0 |})
      by (apply clean_up_lookup_Some; done).
    cbn [check_rate_limit_calls].
    destruct (Z_lt_le_dec c (RateLimit.max_requests (limits self))) as [Hlt | Hge].
    + rewrite (check_rate_limit_below _ _ _ _ _ Hskip Hlive Hlt). cbn [count timestamp].
      set (self1 := set_failed_attempts self _).
      destruct (IH self1 path ip t0 (c + 1)) as (Hrs & Hcfg & Hfa);
        [ done | by subst self1; cbn; rewrite lookup_insert_eq
        | change (limits self1) with (limits self); lia | done | ].
      destruct (check_rate_limit_calls self1 path ip times) as [self2 rs].
      cbn [fst snd] in *. change (limits self1) with (limits self) in *.
      split; [ | split; [ by rewrite Hcfg | ] ].
      * rewrite Hrs.
        replace (Z.to_nat (RateLimit.max_requests (limits self) - c))
          with (S (Z.to_nat (RateLimit.max_requests (limits self) - (c + 1)))) by lia.
        cbn [length]. rewrite <- Nat.succ_min_distr. done.
      * rewrite Hfa. unfold len. cbn [length]. do 2 f_equal. lia.
    + rewrite (check_rate_limit_at_limit _ _ _ _ _ Hskip Hlive Hge).
      set (self1 := set_failed_attempts self _).
      destruct (IH self1 path ip t0 c) as (Hrs & Hcfg & Hfa);
        [ done | by subst self1 | change (limits self1) with (limits self); lia | done | ].
      destruct (check_rate_limit_calls self1 path ip times) as [self2 rs].
      cbn [fst snd] in *. change (limits self1) with (limits self) in *.
      split; [ | split; [ by rewrite Hcfg | ] ].
      * rewrite Hrs.
        replace (Z.to_nat (RateLimit.max_requests (limits self) - c)) with 0%nat by lia.
        rewrite !Nat.min_0_r, !Nat.sub_0_r. done.
      * rewrite Hfa. unfold len. cbn [length]. do 2 f_equal. lia.
Qed.

(** C9. On a path of [skip_paths], [check_rate_limit] lets the request
    through and changes nothing: the service, and with it the map of
    entries, is the one it was called on. *)
Theorem check_rate_limit_exempt self path ip now :
  path ∈ RateLimit.skip_paths (limits self) →
  snd (check_rate_limit self path ip now) = true
  ∧ fst (check_rate_limit self path ip now) = self
  ∧ _failed_attempts (fst (check_rate_limit self path ip now)) = _failed_attempts self.
Proof. intros Hin. by rewrite (check_rate_limit_skip _ _ _ _ Hin). Qed.

(** C8. A call for a key with no live entry (none, or one whose window
    has elapsed) is let through whatever [max_requests] is, zero
    included; on a path that is not skipped it leaves the entry
    [(count 1, now)]. *)
Theorem check_rate_limit_first_request self path ip now :
  clean_up self now !! rate_key path ip = None →
  snd (check_rate_limit self path ip now) = true
  ∧ (path ∉ RateLimit.skip_paths (limits self) →
     _failed_attempts (fst (check_rate_limit self path ip now)) !! rate_key path ip
     = Some {| count := 1; timestamp := now |}).
Proof.
  intros Hnone.
  destruct (decide (path ∈ RateLimit.skip_paths (limits self))) as [Hin | Hout].
  - by rewrite (check_rate_limit_skip _ _ _ _ Hin).
  - rewrite (check_rate_limit_fresh _ _ _ _ Hout Hnone). cbn.
    split; [ done | ]. intros _. by rewrite lookup_insert_eq.
Qed.

(** Calls for one key from a state without a live entry for it. *)
Lemma check_rate_limit_calls_fresh self path ip t0 times :
  path ∉ RateLimit.skip_paths (limits self) →
  1 ≤ RateLimit.max_requests (limits self) →
  clean_up self t0 !! rate_key path ip = None →
  Forall (λ now, now - t0 < RateLimit.window (limits self)) times →
  snd (check_rate_limit_calls self path ip (t0 :: times))
  = replicate (S (length times) `min` Z.to_nat (RateLimit.max_requests (limits self))) true
    ++ replicate (S (length times) - Z.to_nat (RateLimit.max_requests (limits self))) false
  ∧ config (fst (check_rate_limit_calls self path ip (t0 :: times))) = config self
  ∧ _failed_attempts (fst (check_rate_limit_calls self path ip (t0 :: times)))
      !! rate_key path ip
    = Some {| count := Z.min (len (t0 :: times)) (RateLimit.max_requests (limits self));
              timestamp := t0 |}.
Proof.
  intros Hskip Hmax Hfresh Hwin.
  cbn [check_rate_limit_calls].
  rewrite (check_rate_limit_fresh _ _ _ _ Hskip Hfresh).
  set (self1 := set_failed_attempts self _).
  destruct (check_rate_limit_calls_live times self1 path ip t0 1) as (Hrs & Hcfg & Hfa);
    [ done | by subst self1; cbn; rewrite lookup_insert_eq
    | change (limits self1) with (limits self); lia | done | ].
  destruct (check_rate_limit_calls self1 path ip times) as [self2 rs].
  cbn [fst snd] in *. change (limits self1) with (limits self) in *.
  split; [ | split; [ done | ] ].
  - rewrite Hrs.
    replace (Z.to_nat (RateLimit.max_requests (limits self)))
      with (S (Z.to_nat (RateLimit.max_requests (limits self) - 1))) by lia.
    by rewrite <- Nat.succ_min_distr.
  - rewrite Hfa. unfold len. cbn [length]. do 2 f_equal. lia.
Qed.

(** With the default limit of 100, a thousand calls in one window, one
    after the other in any order of arrival: the first hundred pass and
    the other nine hundred are refused. *)
Lemma check_rate_limit_thousand_calls self path ip t0 times :
  path ∉ RateLimit.skip_paths (limits self) →
  RateLimit.max_requests (limits self) = 100 →
  clean_up self t0 !! rate_key path ip = None →
  Forall (λ now, now - t0 < RateLimit.window (limits self)) times →
  length times = 999%nat →
  snd (check_rate_limit_calls self path ip (t0 :: times))
  = replicate 100 true ++ replicate 900 false.
Proof.
  intros Hskip Hmax Hfresh Hwin Hlen.
  destruct (check_rate_limit_calls_fresh self path ip t0 times) as (Hrs & _);
    [ done | lia | done | done | ].
  rewrite Hrs, Hmax, Hlen. reflexivity.
Qed.

(** C2. Calls for one address and one path that is not skipped, with
    [max_requests >= 1], the first at [t0] finding no live entry and the
    others within the window that opens at [t0]: the first [max_requests]
    calls pass and every later one is refused; the entry counts the calls
    that passed and no refused one; and a call once the window has elapsed
    passes again, opening a new window. *)
Theorem check_rate_limit_window self path ip t0 times :
  path ∉ RateLimit.skip_paths (limits self) →
  1 ≤ RateLimit.max_requests (limits self) →
  clean_up self t0 !! rate_key path ip = None →
  Forall (λ now, now - t0 < RateLimit.window (limits self)) times →
  snd (check_rate_limit_calls self path ip (t0 :: times))
  = replicate (S (length times) `min` Z.to_nat (RateLimit.max_requests (limits self))) true
    ++ replicate (S (length times) - Z.to_nat (RateLimit.max_requests (limits self))) false
  ∧ _failed_attempts (fst (check_rate_limit_calls self path ip (t0 :: times)))
      !! rate_key path ip
    = Some {| count := Z.min (len (t0 :: times)) (RateLimit.max_requests (limits self));
              timestamp := t0 |}
  ∧ ∀ later,
      RateLimit.window (limits self) ≤ later - t0 →
      snd (check_rate_limit (fst (check_rate_limit_calls self path ip (t0 :: times)))
             path ip later) = true
      ∧ _failed_attempts
          (fst (check_rate_limit (fst (check_rate_limit_calls self path ip (t0 :: times)))
                  path ip later)) !! rate_key path ip
        = Some {| count := 1; timestamp := later |}.
Proof.
  intros Hskip Hmax Hfresh Hwin.
  destruct (check_rate_limit_calls_fresh self path ip t0 times Hskip Hmax Hfresh Hwin)
    as (Hrs & Hcfg & Hfa).
  set (self2 := fst (check_rate_limit_calls self path ip (t0 :: times))) in *.
  assert (Hlim : limits self2 = limits self) by (unfold limits; by rewrite Hcfg).
  split; [ done | split; [ done | ] ].
  intros later Hlater.
  assert (Hgone : clean_up self2 later !! rate_key path ip = None).
  { apply clean_up_lookup_None. intros e He. rewrite Hfa in He.
    injection He as <-. cbn. by rewrite Hlim. }
  rewrite (check_rate_limit_fresh self2 path ip later); [ | by rewrite Hlim | done ].
  cbn. by rewrite lookup_insert_eq.
Qed.

End rate_limit.

(** ** Properties of the codec *)
(** [lia] with quotients and remainders by constants. *)
Ltac div_lia := zify; Z.to_euclidean_division_equations; lia.

Section utf8.
Import Utf8.
Local Open Scope N_scope.

Lemma to_N_byte_of_N n : n < 256 → Byte.to_N (byte_of_N n) = n.
Proof.
  intros Hn. unfold byte_of_N. destruct (Byte.of_N n) as [b|] eqn:Hb.
  - by apply Byte.to_of_N.
  - apply Byte.of_N_None_iff in Hb. lia.
Qed.

Lemma byte_of_N_to_N b : byte_of_N (Byte.to_N b) = b.
Proof. unfold byte_of_N. by rewrite Byte.of_to_N. Qed.

(** Settles the comparisons of the goal by linear arithmetic. *)
Ltac decide_tests :=
  repeat match goal with
  | |- context [N.ltb ?a ?b] => destruct (N.ltb_spec a b); [ | exfalso; lia ]
  | |- context [N.ltb ?a ?b] => destruct (N.ltb_spec a b); [ exfalso; lia | ]
  | |- context [N.leb ?a ?b] => destruct (N.leb_spec a b); [ | exfalso; lia ]
  | |- context [N.leb ?a ?b] => destruct (N.leb_spec a b); [ exfalso; lia | ]
  end.

Lemma decode_encode_char c b rest :
  encode_char c = Some b →
  decode_bytes (b ++ rest)
  = match decode_bytes rest with Some s => Some (c :: s) | None => None end.
Proof.
  unfold encode_char.
  destruct (N.ltb_spec c 0x80); [ intros [= <-] | ].
  { cbn [app decode_bytes]. rewrite to_N_byte_of_N by lia.
    decide_tests. done. }
  destruct (N.ltb_spec c 0x800); [ intros [= <-] | ].
  { assert (Hc : c = c / 64 * 64 + c mod 64 ∧ c mod 64 < 64) by div_lia.
    revert Hc. generalize (c / 64) (c mod 64). intros x y [-> Hy].
    cbn [app decode_bytes]. unfold is_cont, payload.
    rewrite !to_N_byte_of_N by lia.
    replace (192 + x - 192) with x by lia. replace (128 + y - 128) with y by lia.
    decide_tests. done. }
  destruct (N.ltb_spec c 0x10000).
  { assert (Hc : c = c / 4096 * 4096 + (c / 64) mod 64 * 64 + c mod 64
                 ∧ (c / 64) mod 64 < 64 ∧ c mod 64 < 64) by div_lia.
    revert Hc. generalize (c / 4096) ((c / 64) mod 64) (c mod 64).
    intros x y z (Hc & Hy & Hz).
    unfold is_surrogate at 1.
    destruct (N.leb_spec 0xD800 c), (N.leb_spec c 0xDFFF); cbn [andb]; try discriminate;
      try (exfalso; lia);
      intros [= <-]; cbn [app decode_bytes]; unfold is_cont, payload, is_surrogate;
      rewrite !to_N_byte_of_N by lia;
      replace (224 + x - 224) with x by lia; replace (128 + y - 128) with y by lia;
      replace (128 + z - 128) with z by lia; rewrite <- Hc;
      decide_tests; cbn [andb negb]; done. }
  destruct (N.ltb_spec c 0x110000); [ intros [= <-] | discriminate ].
  assert (Hc : c = c / 262144 * 262144 + (c / 4096) mod 64 * 4096
                   + (c / 64) mod 64 * 64 + c mod 64
               ∧ (c / 4096) mod 64 < 64 ∧ (c / 64) mod 64 < 64 ∧ c mod 64 < 64)
    by div_lia.
  revert Hc.
  generalize (c / 262144) ((c / 4096) mod 64) ((c / 64) mod 64) (c mod 64).
  intros x y z u (Hc & Hy & Hz & Hu).
  cbn [app decode_bytes]. unfold is_cont, payload.
  rewrite !to_N_byte_of_N by lia.
  replace (240 + x - 240) with x by lia. replace (128 + y - 128) with y by lia.
  replace (128 + z - 128) with z by lia. replace (128 + u - 128) with u by lia.
  rewrite <- Hc. decide_tests. cbn [andb negb]. done.
Qed.

Lemma decode_encode_chars s : ∀ b,
  encode_chars s = Some b → decode_bytes b = Some s.
Proof.
  induction s as [|c s IH]; intros b; cbn [encode_chars].
  - by intros [= <-].
  - destruct (encode_char c) as [bc|] eqn:Hc; [ | discriminate ].
    destruct (encode_chars s) as [bs|] eqn:Hs; [ | discriminate ].
    intros [= <-]. by rewrite (decode_encode_char _ _ _ Hc), (IH bs).
Qed.

(** ASCII bytes decode to the text with the same code points, which
    encodes back to them. *)
Lemma decode_ascii b :
  Forall (λ x, Byte.to_N x < 0x80) b →
  decode_bytes b = Some (map Byte.to_N b)
  ∧ encode_chars (map Byte.to_N b) = Some b.
Proof.
  induction 1 as [|x b Hx _ [IHd IHe]]; [ done | ].
  cbn [decode_bytes map encode_chars]. rewrite IHd, IHe. unfold encode_char.
  destruct (N.ltb_spec (Byte.to_N x) 0x80); [ | lia ].
  by rewrite byte_of_N_to_N.
Qed.

Lemma encode_chars_ascii s :
  Forall (λ c, c < 0x80) s → encode_chars s = Some (byte_of_N <$> s).
Proof.
  induction 1 as [|c s Hc _ IH]; [ done | ].
  cbn [encode_chars]. rewrite IH. unfold encode_char.
  destruct (N.ltb_spec c 0x80); [ done | lia ].
Qed.

End utf8.

(** [decode] after [encode] gives the text back. *)
Lemma decode_encode s b : encode s = Ok b → decode b = Ok s.
Proof.
  unfold encode, decode.
  destruct (Utf8.encode_chars s) as [b'|] eqn:Hs; [ | discriminate ].
  intros [= <-]. by rewrite (decode_encode_chars _ _ Hs).
Qed.

(** ** The example cipher is a cipher *)

Section hex_cipher.
Import Utf8 HexCipher.
Local Open Scope N_scope.

Lemma to_N_nibble n : n < 16 → Byte.to_N (nibble n) = 0x41 + n.
Proof. intros Hn. unfold nibble. apply to_N_byte_of_N. lia. Qed.

Lemma unnibble_nibble n : n < 16 → unnibble (nibble n) = Some n.
Proof.
  intros Hn. unfold unnibble. rewrite to_N_nibble by done.
  destruct (N.leb_spec 0x41 (0x41 + n)), (N.ltb_spec (0x41 + n) 0x51); try lia.
  cbn. f_equal. lia.
Qed.

Lemma unhex_hex m : unhex (hex m) = Some m.
Proof.
  induction m as [|b m IH]; [ done | ].
  cbn [hex hex_byte app unhex].
  pose proof (Byte.to_N_bounded b).
  rewrite !unnibble_nibble, IH by div_lia.
  replace (Byte.to_N b / 16 * 16 + Byte.to_N b mod 16) with (Byte.to_N b) by div_lia.
  by rewrite byte_of_N_to_N.
Qed.

Lemma eqb_refl b : Byte.eqb b b = true.
Proof. by apply Byte.byte_dec_lb. Qed.

Lemma strip_app p t : strip (p ++ [dot]) (p ++ dot :: t) = Some t.
Proof. induction p as [|a p IH]; cbn; rewrite ?eqb_refl; done. Qed.

Lemma nibble_not_dot n : n < 16 → nibble n ≠ dot.
Proof.
  intros Hn Heq. apply (f_equal Byte.to_N) in Heq.
  rewrite to_N_nibble in Heq by done. cbn in Heq. lia.
Qed.

Lemma nibble_inj n1 n2 : n1 < 16 → n2 < 16 → nibble n1 = nibble n2 → n1 = n2.
Proof.
  intros H1 H2 Heq. apply (f_equal Byte.to_N) in Heq.
  rewrite !to_N_nibble in Heq by done. lia.
Qed.

Lemma to_N_inj b1 b2 : Byte.to_N b1 = Byte.to_N b2 → b1 = b2.
Proof.
  intros Heq. apply (f_equal Byte.of_N) in Heq.
  rewrite !Byte.of_to_N in Heq. congruence.
Qed.

Lemma strip_hex_inv k' : ∀ k t,
  strip (hex k' ++ [dot]) (hex k ++ dot :: t) ≠ None → k' = k.
Proof.
  induction k' as [|b' k' IH]; intros [|b k] t Hs.
  - done.
  - exfalso. apply Hs. cbn [hex hex_byte app strip].
    pose proof (Byte.to_N_bounded b).
    destruct (Byte.eqb dot (nibble (Byte.to_N b / 16))) eqn:He; [ | done ].
    apply Byte.byte_dec_bl in He. symmetry in He.
    apply nibble_not_dot in He; [ done | div_lia ].
  - exfalso. apply Hs. cbn [hex hex_byte app strip].
    pose proof (Byte.to_N_bounded b').
    destruct (Byte.eqb (nibble (Byte.to_N b' / 16)) dot) eqn:He; [ | done ].
    apply Byte.byte_dec_bl in He.
    apply nibble_not_dot in He; [ done | div_lia ].
  - cbn [hex hex_byte app strip] in Hs.
    pose proof (Byte.to_N_bounded b). pose proof (Byte.to_N_bounded b').
    destruct (Byte.eqb (nibble (Byte.to_N b' / 16)) (nibble (Byte.to_N b / 16))) eqn:Hh;
      [ | done ].
    destruct (Byte.eqb (nibble (Byte.to_N b' mod 16)) (nibble (Byte.to_N b mod 16))) eqn:Hl;
      [ | done ].
    apply Byte.byte_dec_bl, nibble_inj in Hh; [ | div_lia .. ].
    apply Byte.byte_dec_bl, nibble_inj in Hl; [ | div_lia .. ].
    f_equal; [ apply to_N_inj; div_lia | by apply (IH k t) ].
Qed.

Lemma open_seal k n m : open k (seal k n m) = Some m.
Proof. unfold open, seal. by rewrite strip_app, unhex_hex. Qed.

Lemma open_wrong_key k k' n m : k ≠ k' → open k' (seal k n m) = None.
Proof.
  intros Hne. unfold open, seal.
  destruct (strip (hex k' ++ [dot]) (hex k ++ dot :: hex m)) eqn:Hs; [ | done ].
  exfalso. apply Hne. symmetry. apply (strip_hex_inv k' k (hex m)). by rewrite Hs.
Qed.

Lemma hex_ascii m : Forall (λ b, Byte.to_N b < 0x80) (hex m).
Proof.
  induction m as [|b m IH]; [ constructor | ].
  pose proof (Byte.to_N_bounded b).
  cbn [hex hex_byte app]. repeat constructor; [ | | done ];
    rewrite to_N_nibble by div_lia; div_lia.
Qed.

Lemma seal_ascii k n m : Forall (λ b, Byte.to_N b < 0x80) (seal k n m).
Proof.
  unfold seal. apply Forall_app. split; [ apply hex_ascii | ].
  constructor; [ cbn; lia | apply hex_ascii ].
Qed.

Definition hex_fernet : Fernet := {|
  key := bytes;
  nonce := unit;
  fernet_encrypt := seal;
  fernet_decrypt := open;
  fernet_decrypt_encrypt := open_seal;
  fernet_token_ascii := seal_ascii
|}.

Lemma hex_fernet_authentic : @FernetAuthentic hex_fernet.
Proof. exact open_wrong_key. Qed.

End hex_cipher.

(** ** Properties of the secret manager *)

Section secret_manager.
Import SecretManager.
Context {cipher : Fernet}.
Implicit Types (self : SecretManager.t) (w : SecretManager.reads) (data : str).

Lemma rotate_if_due_interval self w :
  _rotation_interval (rotate_if_due self w) = _rotation_interval self.
Proof. unfold rotate_if_due. by destruct (_should_rotate _ _). Qed.

Lemma rotate_if_due_key self w :
  consistent self → is_Some (_fernet (rotate_if_due self w)).
Proof.
  intros Hc. unfold rotate_if_due, _should_rotate.
  destruct (_key_created self) as [created|] eqn:Hk; [ | by eexists ].
  destruct (_ <? _); [ by eexists | ]. apply Hc. by eexists.
Qed.

Lemma encrypt_all_invariant calls : ∀ self,
  consistent self →
  consistent (encrypt_all self calls)
  ∧ _rotation_interval (encrypt_all self calls) = _rotation_interval self.
Proof.
  induction calls as [|[w data] calls IH]; intros self Hc; [ done | ].
  cbn [encrypt_all encrypt fst].
  destruct (IH (rotate_if_due self w)) as [IH1 IH2].
  - intros _. by apply rotate_if_due_key.
  - split; [ done | ]. by rewrite IH2, rotate_if_due_interval.
Qed.

Lemma reachable_consistent calls : consistent (encrypt_all __init__ calls).
Proof. apply encrypt_all_invariant. by intros [? [=]]. Qed.

Lemma reachable_interval calls :
  _rotation_interval (encrypt_all __init__ calls) = days 30.
Proof. by destruct (encrypt_all_invariant calls __init__) as [_ ->]; [ intros [? [=]] | ]. Qed.

(** [encrypt] on a text that has an encoding returns a token, and
    [decrypt] gives the text back in every state that holds the key
    [encrypt] used. *)
Lemma encrypt_then_decrypt self w data plain :
  consistent self →
  encode data = Ok plain →
  ∃ k token,
    _fernet (fst (encrypt self w data)) = Some k
    ∧ snd (encrypt self w data) = Ok token
    ∧ encode token = Ok (fernet_encrypt k (enc_nonce w) plain)
    ∧ ∀ self2, _fernet self2 = Some k → decrypt self2 token = Ok data.
Proof.
  intros Hc Hplain. unfold encrypt. cbn [fst snd].
  destruct (rotate_if_due_key self w Hc) as [k Hk]. rewrite Hk, Hplain.
  exists k, (map Byte.to_N (fernet_encrypt k (enc_nonce w) plain)).
  destruct (decode_ascii _ (fernet_token_ascii k (enc_nonce w) plain)) as [Hd He].
  assert (Henc : encode (map Byte.to_N (fernet_encrypt k (enc_nonce w) plain))
                 = Ok (fernet_encrypt k (enc_nonce w) plain))
    by (unfold encode; by rewrite He).
  repeat split; [ cbn; unfold decode; by rewrite Hd | done | ].
  intros self2 Hk2. unfold decrypt. rewrite Hk2, Henc. cbn.
  rewrite fernet_decrypt_encrypt. by apply decode_encode.
Qed.

Lemma no_rotation_same calls : ∀ self,
  no_rotation self calls = true → encrypt_all self calls = self.
Proof.
  induction calls as [|[w data] calls IH]; intros self; [ done | ].
  cbn [no_rotation encrypt_all]. intros [Hw Hrest]%andb_true_iff.
  apply negb_true_iff in Hw.
  assert (Hsame : fst (encrypt self w data) = self)
    by (unfold encrypt, rotate_if_due; by rewrite Hw).
  rewrite Hsame in *. by apply IH.
Qed.

(** C10. Before any [encrypt] the manager holds no key, and [decrypt]
    raises [ValueError("No encryption key available")] for every input:
    it returns no plaintext. *)
Theorem decrypt_without_key encrypted_data :
  decrypt __init__ encrypted_data
  = Raise (ValueError (py "No encryption key available"))
  ∧ ∀ plain, decrypt __init__ encrypted_data ≠ Ok plain.
Proof. split; [ reflexivity | discriminate ]. Qed.

(** C3. In any state the manager reaches by [encrypt] calls, [encrypt]
    of a text [data] (one that has an encoding, the byte sequence
    [plain]) returns a token, and [decrypt] of that token returns [data],
    directly afterwards and after any further [encrypt] calls that do not
    rotate the key. *)
Theorem decrypt_encrypt_no_rotation calls w data plain later :
  encode data = Ok plain →
  no_rotation (fst (encrypt (encrypt_all __init__ calls) w data)) later = true →
  ∃ token,
    snd (encrypt (encrypt_all __init__ calls) w data) = Ok token
    ∧ decrypt (encrypt_all (fst (encrypt (encrypt_all __init__ calls) w data)) later)
        token = Ok data.
Proof.
  intros Hplain Hlater.
  destruct (encrypt_then_decrypt _ w data plain (reachable_consistent calls) Hplain)
    as (k & token & Hk & Htoken & _ & Hdec).
  exists token. split; [ done | ].
  rewrite (no_rotation_same _ _ Hlater). by apply Hdec.
Qed.

(** X19. After every [encrypt] call, the first included, the manager
    holds a key, and the age of that key at the last clock reading of the
    call is at most the manager's rotation interval, which is thirty
    days whatever the configuration of the service says. *)
Theorem encrypt_key_age calls w data :
  ∃ k created,
    _fernet (fst (encrypt (encrypt_all __init__ calls) w data)) = Some k
    ∧ _key_created (fst (encrypt (encrypt_all __init__ calls) w data)) = Some created
    ∧ last_reading (encrypt_all __init__ calls) w - created
      ≤ _rotation_interval (fst (encrypt (encrypt_all __init__ calls) w data))
    ∧ _rotation_interval (fst (encrypt (encrypt_all __init__ calls) w data)) = days 30.
Proof.
  pose proof (reachable_consistent calls) as Hc.
  pose proof (reachable_interval calls) as Hi.
  set (self := encrypt_all __init__ calls) in *.
  unfold encrypt, last_reading, rotate_if_due. cbn [fst].
  destruct (_should_rotate self (now_check w)) eqn:Hrot.
  - exists (new_key w), (now_create w). cbn. rewrite Hi.
    repeat split; unfold days; lia.
  - unfold _should_rotate in Hrot.
    destruct (_key_created self) as [created|] eqn:Hcreated; [ | discriminate ].
    destruct Hc as [k Hk]; [ by eexists | ].
    exists k, created. apply Z.ltb_ge in Hrot. rewrite Hi in *. done.
Qed.

(** C1, as the code has it. The manager keeps one key and its tokens
    carry no key version: there is no keyring. [decrypt] returns the text
    as long as the manager still holds the key [encrypt] used; once an
    [encrypt] call has rotated to another key, the old key is gone and
    [decrypt] of the token raises the cipher's [InvalidToken]. *)
Theorem decrypt_after_rotation {authentic : FernetAuthentic} calls w data plain :
  encode data = Ok plain →
  ∃ k token,
    _fernet (fst (encrypt (encrypt_all __init__ calls) w data)) = Some k
    ∧ snd (encrypt (encrypt_all __init__ calls) w data) = Ok token
    ∧ (∀ self2, _fernet self2 = Some k → decrypt self2 token = Ok data)
    ∧ (∀ self2 w2 data2,
         _should_rotate self2 (now_check w2) = true →
         new_key w2 ≠ k →
         _fernet (fst (encrypt self2 w2 data2)) = Some (new_key w2)
         ∧ decrypt (fst (encrypt self2 w2 data2)) token = Raise InvalidToken).
Proof.
  intros Hplain.
  destruct (encrypt_then_decrypt _ w data plain (reachable_consistent calls) Hplain)
    as (k & token & Hk & Htoken & Henc & Hdec).
  exists k, token. split; [ done | ]. split; [ done | ]. split; [ done | ].
  intros self2 w2 data2 Hrot Hnew.
  unfold encrypt. cbn [fst]. unfold rotate_if_due. rewrite Hrot.
  split; [ done | ].
  unfold decrypt. cbn [_create_key _fernet]. rewrite Henc.
  change (match fernet_decrypt (new_key w2) (fernet_encrypt k (enc_nonce w) plain) with
          | Some plain0 => decode plain0
          | None => Raise InvalidToken
          end = Raise InvalidToken).
  rewrite fernet_wrong_key; [ done | ]. congruence.
Qed.

End secret_manager.

(** ** Properties of the digest comparison *)

Example sha256_empty :
  map Byte.to_N (Sha256.sha256 [])
  = [
     0xe3; 0xb0; 0xc4; 0x42; 0x98; 0xfc; 0x1c; 0x14;
     0x9a; 0xfb; 0xf4; 0xc8; 0x99; 0x6f; 0xb9; 0x24;
     0x27; 0xae; 0x41; 0xe4; 0x64; 0x9b; 0x93; 0x4c;
     0xa4; 0x95; 0x99; 0x1b; 0x78; 0x52; 0xb8; 0x55
    ]%N.
Proof. vm_compute. reflexivity. Qed.

Example sha256_abc :
  map Byte.to_N (Sha256.sha256 ["a"; "b"; "c"]%byte)
  = [
     0xba; 0x78; 0x16; 0xbf; 0x8f; 0x01; 0xcf; 0xea;
     0x41; 0x41; 0x40; 0xde; 0x5d; 0xae; 0x22; 0x23;
     0xb0; 0x03; 0x61; 0xa3; 0x96; 0x17; 0x7a; 0x9c;
     0xb4; 0x10; 0xff; 0x61; 0xf2; 0x00; 0x15; 0xad
    ]%N.
Proof. vm_compute. reflexivity. Qed.

Example sha256_two_blocks :
  map Byte.to_N (Sha256.sha256 (repeat "a"%byte 64))
  = [
     0xff; 0xe0; 0x54; 0xfe; 0x7a; 0xe0; 0xcb; 0x6d;
     0xc6; 0x5c; 0x3a; 0xf9; 0xb6; 0x1d; 0x52; 0x09;
     0xf4; 0x39; 0x85; 0x1d; 0xb4; 0x3d; 0x0b; 0xa5;
     0x99; 0x73; 0x37; 0xdf; 0x15; 0x46; 0x68; 0xeb
    ]%N.
Proof. vm_compute. reflexivity. Qed.

Section counting.
Context {A : Type}.
Implicit Types (letters : list A) (w : list A).

Lemma length_bind_const {B} (f : A → list B) (l : list A) m :
  (∀ a, length (f a) = m) → length (l ≫= f) = (length l * m)%nat.
Proof.
  intros Hf. induction l as [|a l IH]; csimpl; [ done | ].
  by rewrite length_app, Hf, IH.
Qed.

Lemma words_length letters n :
  length (words letters n) = (length letters ^ n)%nat.
Proof.
  induction n as [|n IH]; [ done | ]. cbn [words Nat.pow].
  apply length_bind_const. intros a. by rewrite length_fmap.
Qed.

Lemma elem_of_words letters n w :
  length w = n → Forall (λ a, a ∈ letters) w → w ∈ words letters n.
Proof.
  revert w. induction n as [|n IH]; intros [|a w] [=] Hall; cbn [words].
  - apply list_elem_of_here.
  - apply Forall_cons in Hall as [Ha Hw]. apply list_elem_of_bind.
    exists a. split; [ | done ]. apply list_elem_of_fmap_2. by apply IH.
Qed.

Lemma elem_of_words_inv letters n : ∀ w,
  w ∈ words letters n → Forall (λ a, a ∈ letters) w.
Proof.
  induction n as [|n IH]; intros w; cbn [words].
  - intros ->%list_elem_of_singleton. constructor.
  - intros (a & (w' & -> & Hw')%list_elem_of_fmap & Ha)%list_elem_of_bind.
    constructor; [ done | by apply IH ].
Qed.

Lemma NoDup_words letters n : NoDup letters → NoDup (words letters n).
Proof.
  intros Hnd. induction n as [|n IH]; cbn [words].
  - apply NoDup_singleton.
  - apply NoDup_bind; [ | | done ].
    + intros a1 a2 w _ _ (w1 & -> & _)%list_elem_of_fmap (w2 & [= -> _] & _)%list_elem_of_fmap.
      done.
    + intros a _. apply NoDup_fmap_2; [ | done ]. by intros w1 w2 [=].
Qed.

(** No function is injective from a list without repetition into a
    shorter list. *)
Lemma no_injection {B} (f : A → B) (dom : list A) (cod : list B) :
  NoDup dom →
  (∀ a, a ∈ dom → f a ∈ cod) →
  (length cod < length dom)%nat →
  ¬ (∀ a1 a2, a1 ∈ dom → a2 ∈ dom → f a1 = f a2 → a1 = a2).
Proof.
  intros Hnd Hcod Hlt Hinj.
  assert (Hsub : f <$> dom ⊆+ cod).
  { apply NoDup_submseteq; [ by apply NoDup_fmap_2_strong | ].
    intros b (a & -> & Ha)%list_elem_of_fmap. by apply Hcod. }
  apply submseteq_length in Hsub. rewrite length_fmap in Hsub. lia.
Qed.

End counting.

Lemma elem_of_all_bytes b : b ∈ all_bytes.
Proof.
  apply list_elem_of_fmap. exists (N.to_nat (Byte.to_N b)). split.
  - by rewrite N2Nat.id, byte_of_N_to_N.
  - apply elem_of_seq. pose proof (Byte.to_N_bounded b). lia.
Qed.

(** More texts of 257 letters over a two-letter alphabet than strings of
    32 bytes. *)
Lemma more_texts_than_digests :
  (length (words all_bytes 32) < length (words [97%N; 98%N] 257))%nat.
Proof.
  rewrite !words_length.
  apply Nat2Z.inj_lt. rewrite !Nat2Z.inj_pow.
  vm_compute. reflexivity.
Qed.

Section comparison.
Import Sha256 SecurityService.
Context {cipher : Fernet}.
Implicit Types (self : SecurityService.t) (a b : bytes).

Lemma big_endian_length n x : length (big_endian n x) = n.
Proof. induction n as [|n IH]; cbn [big_endian length]; congruence. Qed.

Lemma sha256_length m : length (sha256 m) = 32%nat.
Proof.
  unfold sha256, digest. by rewrite length_map, !length_app, !big_endian_length.
Qed.

Lemma fold_mix_zero pairs : ∀ acc, fold_left mix pairs acc = 0 → acc = 0.
Proof.
  induction pairs as [|xy pairs IH]; intros acc; [ done | ].
  cbn [fold_left]. intros Hz. apply IH in Hz. unfold mix in Hz.
  apply Z.lor_eq_0_iff in Hz. tauto.
Qed.

Lemma fold_mix_equal a : ∀ b acc,
  length a = length b →
  fold_left mix (combine a b) acc = 0 ↔ acc = 0 ∧ a = b.
Proof.
  induction a as [|x a IH]; intros [|y b] acc Hlen; try discriminate Hlen;
    cbn [combine fold_left].
  - tauto.
  - injection Hlen as Hlen. rewrite (IH b _ Hlen). unfold mix. cbn [fst snd].
    rewrite Z.lor_eq_0_iff, Z.lxor_eq_0_iff. split.
    + intros [[Hacc Hxy] Hab]. apply N2Z.inj in Hxy.
      apply (f_equal Utf8.byte_of_N) in Hxy. rewrite !byte_of_N_to_N in Hxy.
      split; congruence.
    + intros [Hacc Hab]. injection Hab as -> ->. tauto.
Qed.

(** [compare_digest] decides equality. *)
Lemma compare_digest_eq a b : compare_digest a b = true ↔ a = b.
Proof.
  unfold compare_digest. rewrite Z.eqb_eq.
  destruct (Nat.eqb_spec (length a) (length b)) as [Hlen | Hlen].
  - rewrite (fold_mix_equal a b 0 Hlen). tauto.
  - split.
    + intros Hz. apply fold_mix_zero in Hz. discriminate Hz.
    + intros ->. done.
Qed.

Lemma constant_time_compare_encoded self val1 val2 b1 b2 :
  encode val1 = Ok b1 →
  encode val2 = Ok b2 →
  constant_time_compare self val1 val2
  = Ok (compare_digest (sha256 b1) (sha256 b2)).
Proof. intros H1 H2. unfold constant_time_compare. by rewrite H1, H2. Qed.

(** C7, as the code has it. For two texts with an encoding,
    [constant_time_compare] returns whether the SHA-256 digests of the
    encodings are equal: [true] exactly when they are, [false] exactly
    when they are not, and so [true] for two identical texts. *)
Theorem constant_time_compare_digests self val1 val2 b1 b2 :
  encode val1 = Ok b1 →
  encode val2 = Ok b2 →
  (constant_time_compare self val1 val2 = Ok true ↔ sha256 b1 = sha256 b2)
  ∧ (constant_time_compare self val1 val2 = Ok false ↔ sha256 b1 ≠ sha256 b2)
  ∧ (val1 = val2 → constant_time_compare self val1 val2 = Ok true).
Proof.
  intros H1 H2. rewrite (constant_time_compare_encoded self _ _ _ _ H1 H2).
  pose proof (compare_digest_eq (sha256 b1) (sha256 b2)) as Heq.
  destruct (compare_digest (sha256 b1) (sha256 b2)).
  - assert (Hd : sha256 b1 = sha256 b2) by (by apply Heq).
    split; [ done | split; [ | done ] ].
    split; [ discriminate | done ].
  - assert (Hd : sha256 b1 ≠ sha256 b2) by (intros Hd; apply Heq in Hd; discriminate).
    split; [ | split; [ done | ] ].
    + split; [ discriminate | done ].
    + intros ->. exfalso. apply Hd. congruence.
Qed.

End comparison.

(** ** More on the password policy *)

Section password_acceptance.
Import PasswordPolicy.
Context {tables : UnicodeDB}.

(** Acceptance, rule by rule. *)
Lemma validate_password_accepts self password :
  validate_password self password = (true, None)
  ↔ min_length self ≤ len password
    ∧ (require_numbers self = true → existsb isdigit password = true)
    ∧ (require_symbols self = true
       → existsb (λ c, negb (isalnum c)) password = true)
    ∧ (require_uppercase self = true → existsb isupper password = true)
    ∧ (require_lowercase self = true → existsb islower password = true).
Proof.
  unfold validate_password, any.
  destruct (Z.ltb_spec (len password) (min_length self)).
  { split; [ discriminate | lia ]. }
  destruct (require_numbers self), (existsb isdigit password); cbn [andb negb];
    try (split; [ discriminate | intros (_ & Hn & _); by specialize (Hn eq_refl) ]);
  destruct (require_symbols self), (existsb (λ c, negb (isalnum c)) password);
    cbn [andb negb];
    try (split; [ discriminate | intros (_ & _ & Hn & _); by specialize (Hn eq_refl) ]);
  destruct (require_uppercase self), (existsb isupper password); cbn [andb negb];
    try (split; [ discriminate | intros (_ & _ & _ & Hn & _); by specialize (Hn eq_refl) ]);
  destruct (require_lowercase self), (existsb islower password); cbn [andb negb];
    try (split; [ discriminate | intros (_ & _ & _ & _ & Hn); by specialize (Hn eq_refl) ]);
  (split; [ intros _ | done ]; repeat split; done).
Qed.

(** X1. Characters added to an accepted password, before or after it, leave
    it accepted. *)
Theorem validate_password_extend self before password after :
  validate_password self password = (true, None) →
  validate_password self (before ++ password ++ after) = (true, None).
Proof.
  rewrite !validate_password_accepts. intros (Hlen & Hd & Hs & Hu & Hl).
  unfold len in *. rewrite !length_app, !existsb_app.
  split; [ lia | ].
  repeat split; intros Hreq;
    [ rewrite (Hd Hreq) | rewrite (Hs Hreq) | rewrite (Hu Hreq) | rewrite (Hl Hreq) ];
    apply orb_true_iff; right; reflexivity.
Qed.

Lemma existsb_Permutation {A} (f : A → bool) (l1 l2 : list A) :
  l1 ≡ₚ l2 → existsb f l1 = existsb f l2.
Proof.
  induction 1 as [|x l1 l2 _ IH|x y l|l1 l2 l3 _ IH1 _ IH2]; cbn [existsb].
  - done.
  - by rewrite IH.
  - by destruct (f x), (f y).
  - congruence.
Qed.

(** X2. The verdict, reason included, does not depend on the order of the
    characters. *)
Theorem validate_password_Permutation self password1 password2 :
  password1 ≡ₚ password2 →
  validate_password self password1 = validate_password self password2.
Proof.
  intros Hperm. unfold validate_password, any, len.
  by rewrite (Permutation_length Hperm), !(existsb_Permutation _ _ _ Hperm).
Qed.

(** X3. The empty password is accepted by the policies that ask for nothing,
    and by no other. *)
Theorem validate_password_empty self :
  validate_password self [] = (true, None)
  ↔ min_length self ≤ 0
    ∧ require_numbers self = false ∧ require_symbols self = false
    ∧ require_uppercase self = false ∧ require_lowercase self = false.
Proof.
  rewrite validate_password_accepts. unfold len. cbn [length existsb].
  destruct (require_numbers self), (require_symbols self),
    (require_uppercase self), (require_lowercase self);
    split; intros (Hlen & H1 & H2 & H3 & H4); try discriminate;
    try (by specialize (H1 eq_refl)); try (by specialize (H2 eq_refl));
    try (by specialize (H3 eq_refl)); try (by specialize (H4 eq_refl));
    repeat split; first [ lia | done ].
Qed.

End password_acceptance.

(** ** The rate limiter under traffic *)

Section traffic_properties.
Import SecurityService.
Context {cipher : Fernet}.
Implicit Types (self : SecurityService.t) (path ip key : str) (now : Z).

Lemma check_rate_limit_limits self path ip now :
  limits (fst (check_rate_limit self path ip now)) = limits self.
Proof. unfold limits. by rewrite check_rate_limit_config. Qed.

Lemma check_rate_limit_counts_bounded self path ip now :
  counts_bounded self → counts_bounded (fst (check_rate_limit self path ip now)).
Proof.
  intros Hb k e. rewrite check_rate_limit_limits.
  unfold check_rate_limit. case_bool_decide; [ apply Hb | ]. cbn zeta.
  assert (Hclean : ∀ k e, clean_up self now !! k = Some e →
            1 ≤ count e ≤ Z.max 1 (RateLimit.max_requests (limits self))).
  { intros k' e' [He' _]%clean_up_lookup_Some. by apply (Hb k'). }
  destruct (clean_up self now !! rate_key path ip) as [e0|] eqn:He0.
  - destruct (Z.leb_spec (RateLimit.max_requests (limits self)) (count e0)); cbn.
    + apply Hclean.
    + destruct (decide (rate_key path ip = k)) as [<- | Hne].
      * rewrite lookup_insert_eq. intros [= <-]. cbn.
        specialize (Hclean _ _ He0). lia.
      * rewrite lookup_insert_ne by done. apply Hclean.
  - cbn. destruct (decide (rate_key path ip = k)) as [<- | Hne].
    + rewrite lookup_insert_eq. intros [= <-]. cbn. lia.
    + rewrite lookup_insert_ne by done. apply Hclean.
Qed.

Lemma check_rate_limit_trace_limits requests : ∀ self,
  limits (fst (check_rate_limit_trace self requests)) = limits self.
Proof.
  induction requests as [|[[path ip] now] requests IH]; intros self; [ done | ].
  cbn [check_rate_limit_trace].
  pose proof (check_rate_limit_limits self path ip now) as Hl.
  destruct (check_rate_limit self path ip now) as [self1 r]. cbn [fst] in Hl.
  specialize (IH self1).
  destruct (check_rate_limit_trace self1 requests) as [self2 rs]. cbn [fst] in *.
  congruence.
Qed.

Lemma check_rate_limit_trace_counts_bounded requests : ∀ self,
  counts_bounded self → counts_bounded (fst (check_rate_limit_trace self requests)).
Proof.
  induction requests as [|[[path ip] now] requests IH]; intros self Hb; [ done | ].
  cbn [check_rate_limit_trace].
  pose proof (check_rate_limit_counts_bounded self path ip now Hb) as Hb1.
  destruct (check_rate_limit self path ip now) as [self1 r]. cbn [fst] in Hb1.
  specialize (IH self1 Hb1).
  by destruct (check_rate_limit_trace self1 requests) as [self2 rs].
Qed.

(** X4. Whatever requests a new service has handled, every count it stores
    is at least 1 and at most [max_requests] (at most 1 when
    [max_requests] is lower): refused requests never make it grow. *)
Theorem check_rate_limit_count_bounds config secret_manager requests key entry :
  _failed_attempts
    (fst (check_rate_limit_trace (SecurityService.__init__ config secret_manager) requests))
    !! key = Some entry →
  1 ≤ count entry
  ∧ count entry ≤ Z.max 1 (RateLimit.max_requests (SecurityConfig.rate_limit config)).
Proof.
  intros He.
  assert (Hb : counts_bounded (SecurityService.__init__ config secret_manager))
    by (intros k e; cbn; by rewrite lookup_empty).
  apply (check_rate_limit_trace_counts_bounded requests) in Hb.
  specialize (Hb key entry He).
  rewrite check_rate_limit_trace_limits in Hb. exact Hb.
Qed.

(** X5. After a call on a path that is not skipped, with a positive window,
    the service stores only entries whose window is open at the time of
    the call: the entries of all keys whose window had elapsed are gone. *)
Theorem check_rate_limit_keeps_live_only self path ip now key entry :
  0 < RateLimit.window (limits self) →
  path ∉ RateLimit.skip_paths (limits self) →
  _failed_attempts (fst (check_rate_limit self path ip now)) !! key = Some entry →
  now - timestamp entry < RateLimit.window (limits self).
Proof.
  intros Hwin Hskip. unfold check_rate_limit.
  rewrite bool_decide_eq_false_2 by done. cbn zeta.
  destruct (clean_up self now !! rate_key path ip) as [e0|] eqn:He0.
  - destruct (_ <=? _); cbn.
    + by intros [_ ?]%clean_up_lookup_Some.
    + destruct (decide (rate_key path ip = key)) as [<- | Hne].
      * rewrite lookup_insert_eq. intros [= <-]. cbn.
        by apply clean_up_lookup_Some in He0 as [_ ?].
      * rewrite lookup_insert_ne by done. by intros [_ ?]%clean_up_lookup_Some.
  - cbn. destruct (decide (rate_key path ip = key)) as [<- | Hne].
    + rewrite lookup_insert_eq. intros [= <-]. cbn. lia.
    + rewrite lookup_insert_ne by done. by intros [_ ?]%clean_up_lookup_Some.
Qed.

(** X6. The key joins address and path with a colon and does not tell where
    the address ends: the request for path [b:c] from address [a] and
    the request for path [c] from address [a:b] are handled as one and
    the same, in verdict and in state. *)
Theorem check_rate_limit_shared_key self a b c now :
  b ++ py ":" ++ c ∉ RateLimit.skip_paths (limits self) →
  c ∉ RateLimit.skip_paths (limits self) →
  check_rate_limit self (b ++ py ":" ++ c) a now
  = check_rate_limit self c (a ++ py ":" ++ b) now.
Proof.
  intros Hbc Hc. unfold check_rate_limit.
  rewrite !bool_decide_eq_false_2 by done.
  assert (Hkey : rate_key (b ++ py ":" ++ c) a = rate_key c (a ++ py ":" ++ b))
    by (unfold rate_key; by rewrite <- !app_assoc).
  by rewrite Hkey.
Qed.

(** Any traffic while the entry [(c, t0)] of [key] is live: of the
    requests counted under [key], the first [max_requests - c] pass. *)
Lemma check_rate_limit_trace_live requests : ∀ self key t0 c,
  _failed_attempts self !! key = Some {| count := c; timestamp := t0 |} →
  c ≤ RateLimit.max_requests (limits self) →
  Forall (λ r : request, r.2 - t0 < RateLimit.window (limits self)) requests →
  passed (RateLimit.skip_paths (limits self)) key requests
    (snd (check_rate_limit_trace self requests))
  = (asked (RateLimit.skip_paths (limits self)) key requests
     `min` Z.to_nat (RateLimit.max_requests (limits self) - c))%nat
  ∧ _failed_attempts (fst (check_rate_limit_trace self requests)) !! key
    = Some {| count := Z.min (c + Z.of_nat (asked (RateLimit.skip_paths (limits self))
                                               key requests))
                         (RateLimit.max_requests (limits self));
              timestamp := t0 |}.
Proof.
  induction requests as [|[[path ip] now] requests IH]; intros self key t0 c Hentry Hc Hwin.
  - cbn. rewrite Z.add_0_r, Z.min_l by lia. done.
  - apply Forall_cons in Hwin as [Hnow Hwin]. cbn [snd] in Hnow.
    cbn [check_rate_limit_trace].
    pose proof (check_rate_limit_limits self path ip now) as Hl1.
    assert (Hstep : ∃ c' : Z,
      _failed_attempts (fst (check_rate_limit self path ip now)) !! key
      = Some {| count := c'; timestamp := t0 |}
      ∧ c' ≤ RateLimit.max_requests (limits self)
      ∧ (if counted (RateLimit.skip_paths (limits self)) key (path, ip, now)
            && snd (check_rate_limit self path ip now)
         then c' = c + 1 else c' = c)
      ∧ (counted (RateLimit.skip_paths (limits self)) key (path, ip, now) = true →
         snd (check_rate_limit self path ip now)
         = bool_decide (c < RateLimit.max_requests (limits self)))).
    { unfold counted. cbn [fst snd].
      destruct (decide (path ∈ RateLimit.skip_paths (limits self))) as [Hin | Hout].
      - rewrite (check_rate_limit_skip _ _ _ _ Hin).
        rewrite (bool_decide_eq_false_2 (path ∉ _)) by (intros Hn; by apply Hn).
        exists c. cbn. done.
      - rewrite (bool_decide_eq_true_2 (path ∉ _)) by done. cbn [andb].
        destruct (decide (rate_key path ip = key)) as [Hk | Hk].
        + rewrite (bool_decide_eq_true_2 _ Hk).
          assert (Hlive : clean_up self now !! rate_key path ip
                          = Some {| count := c; timestamp := t0 |})
            by (rewrite Hk; by apply clean_up_lookup_Some).
          destruct (Z_lt_le_dec c (RateLimit.max_requests (limits self))) as [Hlt | Hge].
          * rewrite (check_rate_limit_below _ _ _ _ _ Hout Hlive Hlt). cbn.
            exists (c + 1). rewrite <- Hk, lookup_insert_eq.
            rewrite bool_decide_eq_true_2 by done. repeat split; first [ lia | done ].
          * rewrite (check_rate_limit_at_limit _ _ _ _ _ Hout Hlive Hge). cbn.
            exists c. rewrite <- Hk, Hlive.
            rewrite bool_decide_eq_false_2 by lia. done.
        + rewrite (bool_decide_eq_false_2 _ Hk). cbn [andb].
          exists c. split; [ | done ].
          by apply check_rate_limit_other_key. }
    destruct Hstep as (c' & Hentry1 & Hc' & Hcount & Hverdict).
    destruct (check_rate_limit self path ip now) as [self1 r]. cbn [fst snd] in *.
    destruct (IH self1 key t0 c') as (Hpassed & Hfinal);
      [ done | by rewrite Hl1 | by rewrite Hl1 | ].
    destruct (check_rate_limit_trace self1 requests) as [self2 rs]. cbn [fst snd] in *.
    rewrite Hl1 in Hpassed, Hfinal. clear IH.
    unfold passed, asked in *. cbn [zip zip_with].
    rewrite !filter_cons. cbn [fst snd].
    destruct (counted (RateLimit.skip_paths (limits self)) key (path, ip, now))
      eqn:Hcounted; cbn [andb] in *.
    + specialize (Hverdict eq_refl). subst r.
      case_bool_decide as Hlt; subst c'.
      * rewrite !decide_True by done. cbn [length]. rewrite Hpassed, Hfinal.
        split; [ | do 2 f_equal; lia ].
        replace (Z.to_nat (RateLimit.max_requests (limits self) - c))
          with (S (Z.to_nat (RateLimit.max_requests (limits self) - (c + 1)))) by lia.
        by rewrite <- Nat.succ_min_distr.
      * rewrite decide_False by done. rewrite !decide_True by done.
        cbn [length]. rewrite Hpassed, Hfinal.
        split; [ | do 2 f_equal; lia ].
        replace (Z.to_nat (RateLimit.max_requests (limits self) - c)) with 0%nat by lia.
        by rewrite !Nat.min_0_r.
    + subst c'. rewrite !decide_False by done. by rewrite Hpassed, Hfinal.
Qed.

(** X7. The quota under mixed traffic. A request opens the window of its
    key at [t0]; whatever requests follow within that window, for this
    key or for others, on skipped paths or not, of those counted under
    the key exactly [max_requests] pass, or all of them if they are
    fewer. *)
Theorem check_rate_limit_quota self path ip t0 requests :
  path ∉ RateLimit.skip_paths (limits self) →
  1 ≤ RateLimit.max_requests (limits self) →
  clean_up self t0 !! rate_key path ip = None →
  Forall (λ r : request, r.2 - t0 < RateLimit.window (limits self)) requests →
  passed (RateLimit.skip_paths (limits self)) (rate_key path ip)
    ((path, ip, t0) :: requests)
    (snd (check_rate_limit_trace self ((path, ip, t0) :: requests)))
  = (asked (RateLimit.skip_paths (limits self)) (rate_key path ip)
       ((path, ip, t0) :: requests)
     `min` Z.to_nat (RateLimit.max_requests (limits self)))%nat.
Proof.
  intros Hskip Hmax Hfresh Hwin.
  cbn [check_rate_limit_trace].
  rewrite (check_rate_limit_fresh _ _ _ _ Hskip Hfresh).
  set (self1 := set_failed_attempts self _).
  destruct (check_rate_limit_trace_live requests self1 (rate_key path ip) t0 1)
    as (Hpassed & _);
    [ by subst self1; cbn; rewrite lookup_insert_eq
    | change (limits self1) with (limits self); lia | done | ].
  destruct (check_rate_limit_trace self1 requests) as [self2 rs]. cbn [fst snd] in *.
  change (limits self1) with (limits self) in *.
  assert (Hfirst : counted (RateLimit.skip_paths (limits self)) (rate_key path ip)
                     (path, ip, t0) = true).
  { unfold counted. cbn. by rewrite !bool_decide_eq_true_2. }
  unfold passed, asked in *. cbn [zip zip_with]. rewrite !filter_cons. cbn [fst snd].
  rewrite Hfirst. cbn [andb]. rewrite !decide_True by done. cbn [length].
  rewrite Hpassed.
  replace (Z.to_nat (RateLimit.max_requests (limits self)))
    with (S (Z.to_nat (RateLimit.max_requests (limits self) - 1))) by lia.
  by rewrite <- Nat.succ_min_distr.
Qed.

End traffic_properties.

(** ** Errors of the codec, the secret manager and the comparison *)

Section codec_errors.
Import Utf8.

(** The code points the codec refuses: the surrogates, and what lies
    beyond the code space (which no [str] holds). *)
Lemma encode_char_None c :
  encode_char c = None ↔ is_surrogate c = true ∨ (0x110000 ≤ c)%N.
Proof.
  unfold encode_char, is_surrogate.
  destruct (N.ltb_spec c 0x80); [ split; [ done | ] | ].
  { intros [[?%N.leb_le _]%andb_true_iff | ?]; lia. }
  destruct (N.ltb_spec c 0x800); [ split; [ done | ] | ].
  { intros [[?%N.leb_le _]%andb_true_iff | ?]; lia. }
  destruct (N.ltb_spec c 0x10000).
  { destruct ((0xD800 <=? c)%N && (c <=? 0xDFFF)%N) eqn:Hs.
    - split; [ by left | done ].
    - split; [ done | intros [? | ?]; [ done | lia ] ]. }
  destruct (N.ltb_spec c 0x110000).
  - split; [ done | ]. intros [[_ ?%N.leb_le]%andb_true_iff | ?]; lia.
  - split; [ by right | done ].
Qed.

Lemma encode_chars_None s :
  encode_chars s = None ↔ ∃ c, c ∈ s ∧ encode_char c = None.
Proof.
  induction s as [|c s IH]; cbn [encode_chars].
  - split; [ done | by intros (c & ?%elem_of_nil & _) ].
  - destruct (encode_char c) as [b|] eqn:Hc.
    + destruct (encode_chars s) as [bs|].
      * split; [ done | ]. intros (c' & [-> | Hin]%elem_of_cons & Hn); [ congruence | ].
        assert (Hbs : Some bs = None) by (apply IH; by exists c').
        discriminate Hbs.
      * split; [ intros _ | done ].
        destruct (proj1 IH eq_refl) as (c' & Hin & Hn).
        exists c'. split; [ by apply list_elem_of_further | done ].
    + split; [ intros _ | done ]. exists c. split; [ apply list_elem_of_here | done ].
Qed.

(** [s.encode()] raises exactly when [s] holds a refused code point. *)
Lemma encode_raises s :
  encode s = Raise UnicodeEncodeError
  ↔ ∃ c, c ∈ s ∧ (is_surrogate c = true ∨ (0x110000 ≤ c)%N).
Proof.
  unfold encode. setoid_rewrite <- encode_char_None. rewrite <- encode_chars_None.
  destruct (encode_chars s); split; done.
Qed.

Lemma encode_outcome s : (∃ b, encode s = Ok b) ∨ encode s = Raise UnicodeEncodeError.
Proof. unfold encode. destruct (Utf8.encode_chars s); eauto. Qed.

End codec_errors.

Section secret_manager_errors.
Import SecretManager.
Context {cipher : Fernet}.
Implicit Types (self : SecretManager.t) (w : SecretManager.reads) (data : str).

(** X8. The only exception [encrypt] raises, in a state reached from
    [__init__], is the [UnicodeEncodeError] of [data.encode()]: a key is
    always there when it is used, and a token always decodes. *)
Theorem encrypt_raises_only_encode_error calls w data e :
  snd (encrypt (encrypt_all __init__ calls) w data) = Raise e →
  e = UnicodeEncodeError ∧ encode data = Raise UnicodeEncodeError.
Proof.
  destruct (encode_outcome data) as [[plain Hplain] | Hraise].
  - destruct (encrypt_then_decrypt _ w data plain (reachable_consistent calls) Hplain)
      as (k & token & _ & Htoken & _).
    rewrite Htoken. discriminate.
  - unfold encrypt. cbn [snd].
    destruct (rotate_if_due_key _ w (reachable_consistent calls)) as [k ->].
    rewrite Hraise. cbn. by intros [= <-].
Qed.

(** X9. [encrypt] of a text with a surrogate code point raises
    [UnicodeEncodeError], yet only after the rotation check: when a
    rotation was due, the failed call has replaced the key all the same. *)
Theorem encrypt_rotates_before_failing calls w data c :
  c ∈ data →
  Utf8.is_surrogate c = true →
  snd (encrypt (encrypt_all __init__ calls) w data) = Raise UnicodeEncodeError
  ∧ (_should_rotate (encrypt_all __init__ calls) (now_check w) = true →
     _fernet (fst (encrypt (encrypt_all __init__ calls) w data)) = Some (new_key w)
     ∧ _key_created (fst (encrypt (encrypt_all __init__ calls) w data))
       = Some (now_create w)).
Proof.
  intros Hin Hsur.
  assert (Hraise : encode data = Raise UnicodeEncodeError)
    by (apply encode_raises; exists c; auto).
  unfold encrypt. cbn [fst snd]. split.
  - destruct (rotate_if_due_key _ w (reachable_consistent calls)) as [k ->].
    by rewrite Hraise.
  - intros Hrot. unfold rotate_if_due. by rewrite Hrot.
Qed.

(** X10. The rotation is strict. With a key created at [created], [encrypt]
    leaves the manager as it is when the clock reads at most thirty days
    more than [created], the thirtieth day's last microsecond included,
    and replaces the key once it reads more. *)
Theorem encrypt_rotation_boundary calls w data created :
  _key_created (encrypt_all __init__ calls) = Some created →
  (now_check w - created ≤ days 30 →
   fst (encrypt (encrypt_all __init__ calls) w data) = encrypt_all __init__ calls)
  ∧ (days 30 < now_check w - created →
     _fernet (fst (encrypt (encrypt_all __init__ calls) w data)) = Some (new_key w)
     ∧ _key_created (fst (encrypt (encrypt_all __init__ calls) w data))
       = Some (now_create w)).
Proof.
  intros Hcreated. unfold encrypt, rotate_if_due, _should_rotate. cbn [fst].
  rewrite Hcreated, reachable_interval. split; intros Hage.
  - by rewrite (proj2 (Z.ltb_ge _ _)).
  - by rewrite (proj2 (Z.ltb_lt _ _)).
Qed.

End secret_manager_errors.

Section comparison_outcomes.
Import Sha256 SecurityService.
Context {cipher : Fernet}.
Implicit Types (self : SecurityService.t).

Lemma compare_digest_sym a b : compare_digest a b = compare_digest b a.
Proof.
  pose proof (compare_digest_eq a b) as Hab.
  pose proof (compare_digest_eq b a) as Hba.
  destruct (compare_digest a b), (compare_digest b a); try done.
  - assert (a = b) by by apply Hab. assert (false = true) by (apply Hba; done). done.
  - assert (b = a) by by apply Hba. assert (false = true) by (apply Hab; done). done.
Qed.

(** X11. The comparison returns the same verdict in either order of its
    arguments, and returns in one order exactly when it returns in the
    other. *)
Theorem constant_time_compare_sym self (val1 val2 : str) (verdict : bool) :
  constant_time_compare self val1 val2 = Ok verdict
  ↔ constant_time_compare self val2 val1 = Ok verdict.
Proof.
  unfold constant_time_compare.
  destruct (encode_outcome val1) as [[b1 ->] | ->],
           (encode_outcome val2) as [[b2 ->] | ->]; try (split; discriminate).
  change (Ok (compare_digest (sha256 b1) (sha256 b2)) = Ok verdict
          ↔ Ok (compare_digest (sha256 b2) (sha256 b1)) = Ok verdict).
  by rewrite compare_digest_sym.
Qed.

(** X12. On two texts (code points below 0x110000) the comparison returns a
    verdict exactly when neither holds a surrogate code point; if one
    does, it raises [UnicodeEncodeError]. *)
Theorem constant_time_compare_returns self (val1 val2 : str) :
  Forall (λ c, (c < 0x110000)%N) val1 →
  Forall (λ c, (c < 0x110000)%N) val2 →
  ((∃ verdict, constant_time_compare self val1 val2 = Ok verdict)
   ↔ Forall (λ c, Utf8.is_surrogate c = false) (val1 ++ val2))
  ∧ (constant_time_compare self val1 val2 = Raise UnicodeEncodeError
     ↔ Exists (λ c, Utf8.is_surrogate c = true) (val1 ++ val2)).
Proof.
  intros Hstr1 Hstr2.
  assert (Hraise : ∀ s, Forall (λ c, (c < 0x110000)%N) s →
            (encode s = Raise UnicodeEncodeError
             ↔ Exists (λ c, Utf8.is_surrogate c = true) s)).
  { intros s Hs. rewrite encode_raises, Exists_exists. split.
    - intros (c & Hin & [Hsur | Hbig]); [ by exists c | ].
      rewrite Forall_forall in Hs. specialize (Hs c Hin). lia.
    - intros (c & Hin & Hsur). exists c. auto. }
  assert (Hnone : ∀ s, Forall (λ c, Utf8.is_surrogate c = false) s
                       ↔ ¬ Exists (λ c, Utf8.is_surrogate c = true) s).
  { intros s. rewrite <- Forall_Exists_neg. apply Forall_iff. intros c.
    by destruct (Utf8.is_surrogate c). }
  rewrite Hnone, Exists_app, <- !Hraise by done.
  unfold constant_time_compare.
  destruct (encode_outcome val1) as [[b1 H1] | H1],
           (encode_outcome val2) as [[b2 H2] | H2]; rewrite H1, ?H2.
  - change (Ok b1 ≫= _) with (Ok (compare_digest (sha256 b1) (sha256 b2)) : result bool).
    split; split; [ intros _ [? | ?]; done | eauto | done | intros [? | ?]; done ].
  - change (Ok b1 ≫= _) with (Raise UnicodeEncodeError : result bool).
    split; split; [ by intros [? ?] | intros Hn; exfalso; apply Hn; by right
                  | by right | done ].
  - change (Raise UnicodeEncodeError ≫= _) with (Raise UnicodeEncodeError : result bool).
    split; split; [ by intros [? ?] | intros Hn; exfalso; apply Hn; by left
                  | by left | done ].
  - change (Raise UnicodeEncodeError ≫= _) with (Raise UnicodeEncodeError : result bool).
    split; split; [ by intros [? ?] | intros Hn; exfalso; apply Hn; by left
                  | by left | done ].
Qed.

End comparison_outcomes.

(** ** Properties of the tokens *)

Section token.
Import Utf8 Base64.
Local Open Scope N_scope.

Lemma to_N_symbol i : i < 64 → url_safe (Byte.to_N (symbol i)) = true
                               ∧ Byte.to_N (symbol i) < 0x80
                               ∧ symbol i ≠ pad.
Proof.
  intros Hi. unfold symbol, url_safe, in_range.
  assert (Hpad : ∀ n, n < 256 → n ≠ 61 → byte_of_N n ≠ pad).
  { intros n Hn Hne Heq. apply (f_equal Byte.to_N) in Heq.
    rewrite to_N_byte_of_N in Heq by done. cbn in Heq. done. }
  destruct (N.ltb_spec i 26); [ | destruct (N.ltb_spec i 52);
    [ | destruct (N.ltb_spec i 62); [ | destruct (N.eqb_spec i 62) ] ] ];
    (split; [ | split; [ | apply Hpad; lia ] ]);
    rewrite to_N_byte_of_N by lia; try lia;
    repeat match goal with
    | |- context [N.leb ?a ?b] => destruct (N.leb_spec a b); try lia
    | |- context [N.eqb ?a ?b] => destruct (N.eqb_spec a b); try lia
    end; reflexivity.
Qed.

Lemma symbol_inj i j : i < 64 → j < 64 → symbol i = symbol j → i = j.
Proof.
  intros Hi Hj Heq. apply (f_equal Byte.to_N) in Heq. unfold symbol in Heq.
  destruct (N.ltb_spec i 26); [ | destruct (N.ltb_spec i 52);
    [ | destruct (N.ltb_spec i 62); [ | destruct (N.eqb_spec i 62) ] ] ];
  (destruct (N.ltb_spec j 26); [ | destruct (N.ltb_spec j 52);
    [ | destruct (N.ltb_spec j 62); [ | destruct (N.eqb_spec j 62) ] ] ]);
  rewrite !to_N_byte_of_N in Heq by lia; lia.
Qed.

Lemma rstrip_pad_cons b bs : b ≠ pad → rstrip_pad (b :: bs) = b :: rstrip_pad bs.
Proof.
  intros Hb. cbn [rstrip_pad]. destruct (rstrip_pad bs); [ | done ].
  destruct (Byte.eqb b pad) eqn:He; [ | done ].
  by apply Byte.byte_dec_bl in He.
Qed.

(** A byte is its quotient and remainder by [d]. *)
Lemma byte_div_mod (x : byte) (d : N) :
  d ≠ 0 →
  Byte.to_N x = d * (Byte.to_N x / d) + Byte.to_N x mod d ∧ Byte.to_N x mod d < d.
Proof. intros Hd. split; [ apply N.div_mod' | by apply N.mod_lt ]. Qed.

(** Names the quotient and the remainder of the byte [x] by [d]. *)
Ltac name_parts x d :=
  let q := fresh "q" in
  let r := fresh "r" in
  destruct (byte_div_mod x d); [ done | ];
  set (q := (Byte.to_N x / d)%N) in *; set (r := (Byte.to_N x mod d)%N) in *;
  clearbody q r.

Lemma mod_bounds (a b c : byte) :
  Byte.to_N a / 4 < 64
  ∧ Byte.to_N a mod 4 * 16 < 64
  ∧ Byte.to_N a mod 4 * 16 + Byte.to_N b / 16 < 64
  ∧ Byte.to_N b mod 16 * 4 < 64
  ∧ Byte.to_N b mod 16 * 4 + Byte.to_N c / 64 < 64
  ∧ Byte.to_N c mod 64 < 64.
Proof.
  pose proof (Byte.to_N_bounded a). pose proof (Byte.to_N_bounded b).
  pose proof (Byte.to_N_bounded c).
  name_parts a 4. name_parts b 16. name_parts c 64.
  repeat split; lia.
Qed.

Lemma stripped_one a :
  stripped [a] = [symbol (Byte.to_N a / 4); symbol (Byte.to_N a mod 4 * 16)].
Proof.
  destruct (mod_bounds a a a) as (H1 & H2 & _).
  unfold stripped. cbn [urlsafe_b64encode].
  rewrite !rstrip_pad_cons by (by apply to_N_symbol). done.
Qed.

Lemma stripped_two a b :
  stripped [a; b]
  = [symbol (Byte.to_N a / 4);
     symbol (Byte.to_N a mod 4 * 16 + Byte.to_N b / 16);
     symbol (Byte.to_N b mod 16 * 4)].
Proof.
  destruct (mod_bounds a b b) as (H1 & _ & H2 & H3 & _).
  unfold stripped. cbn [urlsafe_b64encode].
  rewrite !rstrip_pad_cons by (by apply to_N_symbol). done.
Qed.

Lemma stripped_three a b c rest :
  stripped (a :: b :: c :: rest)
  = symbol (Byte.to_N a / 4)
    :: symbol (Byte.to_N a mod 4 * 16 + Byte.to_N b / 16)
    :: symbol (Byte.to_N b mod 16 * 4 + Byte.to_N c / 64)
    :: symbol (Byte.to_N c mod 64)
    :: stripped rest.
Proof.
  destruct (mod_bounds a b c) as (H1 & _ & H2 & _ & H3 & H4).
  unfold stripped. cbn [urlsafe_b64encode].
  rewrite !rstrip_pad_cons by (by apply to_N_symbol). done.
Qed.

(** Induction on a byte string three bytes at a time. *)
Lemma bytes_by_three (P : bytes → Prop) :
  P [] → (∀ a, P [a]) → (∀ a b, P [a; b]) →
  (∀ a b c rest, P rest → P (a :: b :: c :: rest)) →
  ∀ bs, P bs.
Proof.
  intros H0 H1 H2 H3 bs.
  assert (Hall : P bs ∧ (∀ a, P (a :: bs)) ∧ (∀ a b, P (a :: b :: bs))).
  { induction bs as [|c bs (IH0 & IH1 & IH2)]; [ by auto | ].
    split; [ apply IH1 | split; [ intros a; apply IH2 | ] ].
    intros a b. by apply H3. }
  apply Hall.
Qed.

Lemma stripped_symbols bs :
  Forall (λ b, url_safe (Byte.to_N b) = true ∧ Byte.to_N b < 0x80) (stripped bs)
  ∧ (3 * N.of_nat (length (stripped bs)) = 4 * N.of_nat (length bs)
     ∨ 3 * N.of_nat (length (stripped bs)) = 4 * N.of_nat (length bs) + 2
     ∨ 3 * N.of_nat (length (stripped bs)) = 4 * N.of_nat (length bs) + 1).
Proof.
  induction bs as [|a|a b|a b c rest [IHs IHl]] using bytes_by_three.
  - split; [ constructor | by left ].
  - destruct (mod_bounds a a a) as (H1 & H2 & _). rewrite stripped_one.
    split; [ | right; left; reflexivity ].
    repeat constructor; by apply to_N_symbol.
  - destruct (mod_bounds a b b) as (H1 & _ & H2 & H3 & _). rewrite stripped_two.
    split; [ | right; right; reflexivity ].
    repeat constructor; by apply to_N_symbol.
  - destruct (mod_bounds a b c) as (H1 & _ & H2 & _ & H3 & H4). rewrite stripped_three.
    split; [ repeat (constructor; [ split; by apply to_N_symbol | ]); done | ].
    cbn [length]. lia.
Qed.

Lemma stripped_inj bs1 : ∀ bs2, stripped bs1 = stripped bs2 → bs1 = bs2.
Proof.
  induction bs1 as [|a|a b|a b c rest IH] using bytes_by_three;
    intros [|a' [|b' [|c' rest']]];
    rewrite ?stripped_one, ?stripped_two, ?stripped_three;
    try discriminate; try done.
  - destruct (mod_bounds a a a) as (H1 & H2 & _).
    destruct (mod_bounds a' a' a') as (H1' & H2' & _).
    intros [= E1%symbol_inj E2%symbol_inj]; try done.
    name_parts a 4. name_parts a' 4.
    f_equal. apply to_N_inj. lia.
  - destruct (mod_bounds a b b) as (H1 & _ & H2 & H3 & _).
    destruct (mod_bounds a' b' b') as (H1' & _ & H2' & H3' & _).
    intros [= E1%symbol_inj E2%symbol_inj E3%symbol_inj]; try done.
    pose proof (Byte.to_N_bounded b). pose proof (Byte.to_N_bounded b').
    name_parts a 4. name_parts a' 4. name_parts b 16. name_parts b' 16.
    f_equal; [ | f_equal ]; apply to_N_inj; lia.
  - destruct (mod_bounds a b c) as (H1 & _ & H2 & _ & H3 & H4).
    destruct (mod_bounds a' b' c') as (H1' & _ & H2' & _ & H3' & H4').
    intros [= E1%symbol_inj E2%symbol_inj E3%symbol_inj E4%symbol_inj Erest%IH];
      try done.
    pose proof (Byte.to_N_bounded b). pose proof (Byte.to_N_bounded b').
    pose proof (Byte.to_N_bounded c). pose proof (Byte.to_N_bounded c').
    name_parts a 4. name_parts a' 4. name_parts b 16. name_parts b' 16.
    name_parts c 64. name_parts c' 64.
    subst rest'. f_equal; [ | f_equal; [ | f_equal ] ]; apply to_N_inj; lia.
Qed.

Lemma decode_ascii_stripped bs :
  decode_ascii (stripped bs) = Ok (map Byte.to_N (stripped bs)).
Proof.
  unfold decode_ascii.
  destruct (stripped_symbols bs) as [Hs _].
  rewrite (proj2 (forallb_forall _ _)); [ done | ].
  intros b Hb%list_elem_of_In. rewrite Forall_forall in Hs.
  apply N.ltb_lt. by apply Hs.
Qed.

Lemma generate_token_Ok {cipher : Fernet} (self : SecurityService.t) length random token :
  generate_token self length random = Ok token →
  (0 ≤ length)%Z ∧ token = map Byte.to_N (stripped random).
Proof.
  unfold generate_token. destruct (Z.ltb_spec length 0); [ discriminate | ].
  fold (stripped random). rewrite decode_ascii_stripped. by intros [= <-].
Qed.

(** X13. When the entropy source hands over [length] bytes, [generate_token]
    returns a token made of the characters [A-Z], [a-z], [0-9], [-] and
    [_] only, four for every three bytes, rounded up: [length = 0] gives
    the empty token. *)
Theorem generate_token_url_safe {cipher : Fernet} (self : SecurityService.t) length random :
  len random = length →
  ∃ token,
    generate_token self length random = Ok token
    ∧ Forall (λ c, url_safe c = true) token
    ∧ len token = ((4 * length + 2) / 3)%Z.
Proof.
  intros Hlen. exists (map Byte.to_N (stripped random)).
  destruct (stripped_symbols random) as [Hs Hl].
  split; [ | split ].
  - unfold generate_token. destruct (Z.ltb_spec length 0); [ unfold len in Hlen; lia | ].
    fold (stripped random). apply decode_ascii_stripped.
  - apply Forall_fmap. eapply Forall_impl; [ exact Hs | ]. by intros b [? _].
  - unfold len in *. rewrite length_map. subst length.
    apply Z.div_unique with
      (r := (4 * Z.of_nat (length random) + 2
             - 3 * Z.of_nat (length (stripped random)))%Z); lia.
Qed.

(** X14. Tokens are equal only when the random bytes behind them are: the
    token keeps all of the entropy it was made from. *)
Theorem generate_token_inj {cipher : Fernet} (self : SecurityService.t)
    length1 random1 length2 random2 token :
  generate_token self length1 random1 = Ok token →
  generate_token self length2 random2 = Ok token →
  random1 = random2.
Proof.
  intros [_ ->]%generate_token_Ok [_ Heq]%generate_token_Ok.
  apply stripped_inj.
  revert Heq. generalize (stripped random1) (stripped random2).
  intros l. induction l as [|x l IH]; intros [|y l'] [=]; [ done | ].
  f_equal; [ by apply to_N_inj | by apply IH ].
Qed.

End token.

(** ** Properties of the enrichment service *)

Section ai_service.
Import AIService.
Context {A : Type}.
Implicit Types (self : AIService.t) (w : replies A).

Lemma enrich_node_on_anthropic self w :
  chain_llm self = Anthropic →
  chain_llm (enrich_node self w).1.1 = Anthropic
  ∧ Forall (λ m, m = Anthropic) (enrich_node self w).2.
Proof.
  intros Hllm. unfold enrich_node. rewrite Hllm.
  destruct (first w Anthropic);
    [ cbn; rewrite Hllm; by repeat constructor
    | | cbn; rewrite Hllm; by repeat constructor ].
  destruct (second w _); cbn; by repeat constructor.
Qed.

Lemma enrich_nodes_on_anthropic (calls : list (replies A)) : ∀ self,
  chain_llm self = Anthropic →
  Forall (λ m, m = Anthropic) (enrich_nodes self calls).2.
Proof.
  induction calls as [|w calls IH]; intros self Hllm; [ constructor | ].
  cbn [enrich_nodes].
  destruct (enrich_node_on_anthropic self w Hllm) as [Hllm1 Hasked1].
  destruct (enrich_node self w) as [[self1 end1] asked1]. cbn [fst snd] in *.
  specialize (IH self1 Hllm1).
  destruct (enrich_nodes self1 calls) as [self2 asked2]. cbn [snd] in *.
  by apply Forall_app.
Qed.

(** X15. The fallback is for good. Once the first attempt of a call has
    failed with an [Exception], the chain is left on the Anthropic
    model, however the fallback ends, and no later call consults the
    OpenAI model again, however its attempts end: what later calls try
    "first" is Anthropic. *)
Theorem enrich_node_fallback_sticks self w message (later : list (replies A)) :
  first w (chain_llm self) = Failed message →
  chain_llm (enrich_node self w).1.1 = Anthropic
  ∧ Forall (λ m, m = Anthropic) (enrich_nodes (enrich_node self w).1.1 later).2.
Proof.
  intros Hfail.
  assert (Hllm : chain_llm (enrich_node self w).1.1 = Anthropic).
  { unfold enrich_node. rewrite Hfail. by destruct (second w _). }
  split; [ done | by apply enrich_nodes_on_anthropic ].
Qed.

End ai_service.

(** ** Properties of the requirements reader *)

Section requirements.
Import DependencyManager.
Context {spaces : SpaceTable}.

Lemma lstrip_id s : Forall (λ c, isspace c = false) s → lstrip s = s.
Proof. destruct 1 as [|c s Hc _]; cbn; [ done | by rewrite Hc ]. Qed.

Lemma rstrip_id s : Forall (λ c, isspace c = false) s → rstrip s = s.
Proof.
  induction 1 as [|c s Hc _ IH]; cbn [rstrip]; [ done | ].
  rewrite IH, Hc. by destruct s.
Qed.

Lemma rstrip_line_feed s :
  isspace 10 = true → rstrip (s ++ [10%N]) = rstrip s.
Proof.
  intros Hlf. induction s as [|c s IH]; cbn [rstrip app]; [ by rewrite Hlf | ].
  by rewrite IH.
Qed.

Lemma split_pin_plain s : ∀ part,
  Forall (λ c, c ≠ 61%N) s → split_pin s part = [rev part ++ s].
Proof.
  induction s as [|c s IH]; intros part Hs; cbn [split_pin].
  - by rewrite app_nil_r.
  - apply Forall_cons in Hs as [Hc Hs]. destruct s as [|d s].
    + done.
    + rewrite (proj2 (N.eqb_neq c 61) Hc). cbn [andb].
      rewrite (IH (c :: part) Hs). cbn [rev]. by rewrite <- app_assoc.
Qed.

Lemma split_pin_at p : ∀ part v,
  Forall (λ c, c ≠ 61%N) p →
  split_pin (p ++ 61%N :: 61%N :: v) part = (rev part ++ p) :: split_pin v [].
Proof.
  induction p as [|c p IH]; intros part v Hp; cbn [split_pin app].
  - cbn. by rewrite app_nil_r.
  - apply Forall_cons in Hp as [Hc Hp].
    destruct (p ++ 61%N :: 61%N :: v) as [|d s] eqn:Hs.
    + destruct p; discriminate.
    + rewrite (proj2 (N.eqb_neq c 61) Hc). cbn [andb].
      rewrite <- Hs, (IH (c :: part) v Hp). cbn [rev]. by rewrite <- app_assoc.
Qed.

Lemma strip_pin_line pin :
  isspace 10 = true → isspace 61 = false →
  plain pin.1 → plain pin.2 →
  strip (pin_line pin) = pin.1 ++ py "==" ++ pin.2.
Proof.
  intros Hlf Heq Hp Hv. unfold strip, pin_line.
  assert (Hbody : Forall (λ c, isspace c = false) (pin.1 ++ py "==" ++ pin.2)).
  { rewrite !Forall_app. split_and!.
    - eapply Forall_impl; [ exact Hp | by intros c [? _] ].
    - by repeat constructor.
    - eapply Forall_impl; [ exact Hv | by intros c [? _] ]. }
  replace (pin.1 ++ py "==" ++ pin.2 ++ [10%N])
    with ((pin.1 ++ py "==" ++ pin.2) ++ [10%N]) by (by rewrite <- !app_assoc).
  destruct (pin.1 ++ py "==" ++ pin.2) as [|c body] eqn:Hshape.
  { by destruct (pin.1). }
  cbn [app lstrip]. apply Forall_cons in Hbody as Hboth. destruct Hboth as [Hc _].
  rewrite Hc. change (c :: body ++ [10%N]) with ((c :: body) ++ [10%N]).
  by rewrite rstrip_line_feed, rstrip_id.
Qed.

Lemma read_lines_pins pins : ∀ deps,
  isspace 10 = true → isspace 61 = false →
  Forall (λ pin, plain pin.1 ∧ plain pin.2 ∧ pin.1 ≠ [] ∧ is_comment pin.1 = false) pins →
  read_lines (pin_line <$> pins) deps
  = Ok (foldl (λ deps pin, <[pin.1 := pin.2]> deps) deps pins).
Proof.
  intros deps Hlf Heq Hpins. revert deps.
  induction Hpins as [|pin pins (Hp & Hv & Hne & Hcomment) _ IH]; intros deps; [ done | ].
  cbn [fmap list_fmap read_lines foldl]. cbv zeta.
  rewrite strip_pin_line by done.
  assert (Hcomment' : is_comment (pin.1 ++ py "==" ++ pin.2) = false)
    by (destruct (pin.1); done).
  rewrite Hcomment', bool_decide_eq_false_2 by (destruct (pin.1); done).
  cbn [negb andb].
  change (py "==" ++ pin.2) with (61%N :: 61%N :: pin.2).
  rewrite split_pin_at by (eapply Forall_impl; [ exact Hp | by intros ? [_ ?] ]).
  rewrite split_pin_plain by (eapply Forall_impl; [ exact Hv | by intros ? [_ ?] ]).
  cbn [rev app]. apply IH.
Qed.

(** X16. Reading back what was pinned: a file of lines [pkg==version], the
    names and versions without blanks or [=], the names not empty and
    not starting with [#], gives the dictionary of the pins, the last
    pin of a package winning. *)
Theorem _read_requirements_pins pins :
  isspace 10 = true → isspace 61 = false →
  Forall (λ pin, plain pin.1 ∧ plain pin.2 ∧ pin.1 ≠ [] ∧ is_comment pin.1 = false) pins →
  _read_requirements (pin_line <$> pins) = Ok (list_to_map (reverse pins)).
Proof.
  intros Hlf Heq Hpins. unfold _read_requirements.
  rewrite read_lines_pins by done. f_equal.
  clear Hpins.
  assert (Hfold : ∀ (deps : gmap str str),
    foldl (λ deps pin, <[pin.1 := pin.2]> deps) deps pins
    = list_to_map (reverse pins) ∪ deps).
  { induction pins as [|pin pins IH]; intros deps; cbn [foldl].
    - rewrite reverse_nil. cbn. by rewrite (left_id_L ∅ (∪)).
    - rewrite IH, reverse_cons, list_to_map_app. cbn [list_to_map foldr].
      rewrite <- (assoc_L (∪)). f_equal. destruct pin as [pkg version]. cbn.
      by rewrite <- insert_union_l, (left_id_L ∅ (∪)). }
  by rewrite Hfold, (right_id_L ∅ (∪)).
Qed.

Lemma has_pin_false s :
  has_pin s = false ↔ ∀ before after, s ≠ before ++ py "==" ++ after.
Proof.
  split.
  - intros Hs before after ->. revert Hs. induction before as [|c before IH].
    + cbn. destruct after; discriminate.
    + cbn [app has_pin]. destruct (before ++ py "==" ++ after) eqn:Hshape.
      * destruct before; discriminate.
      * rewrite orb_false_iff. by intros [_ ?%IH].
  - induction s as [|c s IH]; intros Hs; [ done | ]. cbn [has_pin].
    destruct s as [|d s]; [ done | ].
    rewrite IH
      by (intros before after Heq; apply (Hs (c :: before) after); by rewrite Heq).
    rewrite orb_false_r.
    destruct (N.eqb_spec c 61) as [-> | ?]; [ | done ].
    destruct (N.eqb_spec d 61) as [-> | ?]; [ | done ].
    by destruct (Hs [] s).
Qed.

Lemma split_pin_whole s : ∀ part,
  has_pin s = false → split_pin s part = [rev part ++ s].
Proof.
  induction s as [|c s IH]; intros part; cbn [split_pin has_pin].
  - by rewrite app_nil_r.
  - destruct s as [|d s]; [ done | ].
    intros [-> Hs]%orb_false_iff.
    rewrite (IH (c :: part) Hs). cbn [rev]. by rewrite <- app_assoc.
Qed.

Lemma read_lines_skips lines1 line lines2 : ∀ deps,
  strip line = [] ∨ is_comment (strip line) = true →
  read_lines (lines1 ++ line :: lines2) deps = read_lines (lines1 ++ lines2) deps.
Proof.
  intros deps Hskip. revert deps.
  induction lines1 as [|first lines1 IH]; intros deps; cbn [app read_lines].
  - destruct Hskip as [-> | ->]; [ done | ]. by rewrite andb_false_r.
  - destruct (_ && _); [ | apply IH ].
    destruct (split_pin _ _) as [|? [|? [|? ?]]]; first [ done | apply IH ].
Qed.

(** X17. A line that is blank, or a comment, once stripped counts for
    nothing, wherever it stands in the file. *)
Theorem _read_requirements_skips lines1 line lines2 :
  strip line = [] ∨ is_comment (strip line) = true →
  _read_requirements (lines1 ++ line :: lines2) = _read_requirements (lines1 ++ lines2).
Proof. apply read_lines_skips. Qed.

Lemma read_lines_raises lines : ∀ deps,
  Exists (λ line, strip line ≠ [] ∧ is_comment (strip line) = false
                  ∧ has_pin (strip line) = false) lines →
  ∃ message, read_lines lines deps = Raise (ValueError message).
Proof.
  intros deps Hbad. revert deps.
  induction Hbad as [line lines (Hne & Hcomment & Hplain)|line lines _ IH];
    intros deps; cbn [read_lines].
  - rewrite Hcomment, bool_decide_eq_false_2 by done. cbn [negb andb].
    rewrite split_pin_whole by done. eauto.
  - destruct (_ && _); [ | apply IH ].
    destruct (split_pin _ _) as [|? [|? [|? ?]]]; eauto.
Qed.

(** X18. A requirement without [==] (a bare name, a range such as [>=])
    makes the reader raise [ValueError], wherever it stands in the file
    and whatever the other lines are. *)
Theorem _read_requirements_unpinned lines line :
  line ∈ lines →
  strip line ≠ [] →
  is_comment (strip line) = false →
  (∀ before after, strip line ≠ before ++ py "==" ++ after) →
  ∃ message, _read_requirements lines = Raise (ValueError message).
Proof.
  intros Hin Hne Hcomment Hpin%has_pin_false.
  apply read_lines_raises, Exists_exists. by exists line.
Qed.

End requirements.

(** ** The theorems on concrete inputs

    The service and the manager over the example cipher. *)

Section examples.
Import SecretManager SecurityService.

(** The default configuration with [max_requests = n]. *)
Definition limited (n : Z) : SecurityConfig.t := {|
  SecurityConfig.key_rotation := KeyRotation.default;
  SecurityConfig.password_policy := PasswordPolicy.default;
  SecurityConfig.rate_limit := {|
    RateLimit.window := minutes 15;
    RateLimit.max_requests := n;
    RateLimit.skip_paths := [py "/health"; py "/metrics"]
  |};
  SecurityConfig.max_login_attempts := 5;
  SecurityConfig.lockout_duration := minutes 15
|}.

Definition service (n : Z) : @SecurityService.t hex_fernet :=
  SecurityService.__init__ (limited n) SecretManager.__init__.

Definition nodes : str := py "/api/v1/nodes".
Definition address : str := py "1.2.3.4".

(** The first [encrypt]: the clock reads 0 and the generated key is [01]. *)
Definition first_call : @SecretManager.reads hex_fernet :=
  @SecretManager.Build_reads hex_fernet (0) [x01] (0) tt.

(** An [encrypt] one day later. *)
Definition next_day : @SecretManager.reads hex_fernet :=
  @SecretManager.Build_reads hex_fernet (days 1) [x02] (days 1) tt.

(** An [encrypt] thirty-one days later: the generated key is [02]. *)
Definition next_month : @SecretManager.reads hex_fernet :=
  @SecretManager.Build_reads hex_fernet (days 31) [x02] (days 31) tt.

(** [check_rate_limit_exempt] on ["/health"], with [max_requests = 0]. *)
Lemma check_rate_limit_exempt_witness :
  py "/health" ∈ RateLimit.skip_paths (limits (service 0))
  ∧ check_rate_limit (service 0) (py "/health") address 0 = (service 0, true).
Proof.
  assert (Hin : py "/health" ∈ RateLimit.skip_paths (limits (service 0)))
    by apply list_elem_of_here.
  destruct (check_rate_limit_exempt (service 0) (py "/health") address 0 Hin)
    as (Hr & Hs & _).
  split; [ exact Hin | ].
  rewrite (surjective_pairing (check_rate_limit _ _ _ _)), Hr, Hs. reflexivity.
Defined.

(** [check_rate_limit_first_request] on a new service with
    [max_requests = 0]. *)
Lemma check_rate_limit_first_request_witness :
  clean_up (service 0) 7 !! rate_key nodes address = None
  ∧ snd (check_rate_limit (service 0) nodes address 7) = true
  ∧ _failed_attempts (fst (check_rate_limit (service 0) nodes address 7))
      !! rate_key nodes address
    = Some {| count := 1; timestamp := 7 |}.
Proof.
  assert (Hfresh : clean_up (service 0) 7 !! rate_key nodes address = None)
    by (vm_compute; reflexivity).
  destruct (check_rate_limit_first_request (service 0) nodes address 7 Hfresh)
    as (Hr & He).
  split; [ exact Hfresh | split; [ exact Hr | ] ].
  apply He. apply (bool_decide_unpack _). vm_compute. exact I.
Defined.

(** [check_rate_limit_window] with [max_requests = 2]: four calls in one
    window, then one a window later. *)
Lemma check_rate_limit_window_witness :
  snd (check_rate_limit_calls (service 2) nodes address [0; 1; 2; 3])
  = [true; true; false; false]
  ∧ _failed_attempts (fst (check_rate_limit_calls (service 2) nodes address [0; 1; 2; 3]))
      !! rate_key nodes address
    = Some {| count := 2; timestamp := 0 |}
  ∧ snd (check_rate_limit
           (fst (check_rate_limit_calls (service 2) nodes address [0; 1; 2; 3]))
           nodes address (minutes 15)) = true.
Proof.
  destruct (check_rate_limit_window (service 2) nodes address 0 [1; 2; 3])
    as (Hrs & Hcount & Hlater).
  - apply (bool_decide_unpack _). vm_compute. exact I.
  - vm_compute. discriminate.
  - vm_compute. reflexivity.
  - repeat constructor.
  - split; [ exact Hrs | split; [ exact Hcount | ] ].
    apply (Hlater (minutes 15)). vm_compute. discriminate.
Defined.

(** The manager after the first call, and after the call a month later. *)
Definition after_first : @SecretManager.t hex_fernet :=
  fst (encrypt SecretManager.__init__ first_call (py "x")).

Definition after_month : @SecretManager.t hex_fernet :=
  fst (encrypt after_first next_month (py "y")).

(** [decrypt_encrypt_no_rotation]: the token of the first call decrypts
    after another call a day later, which keeps the key. *)
Lemma decrypt_encrypt_no_rotation_witness :
  ∃ token,
    snd (encrypt SecretManager.__init__ first_call (py "x")) = Ok token
    ∧ decrypt (fst (encrypt after_first next_day (py "y"))) token = Ok (py "x").
Proof.
  apply (decrypt_encrypt_no_rotation (cipher := hex_fernet)
           [] first_call (py "x") ["x"%byte] [(next_day, py "y")]).
  - vm_compute. reflexivity.
  - vm_compute. reflexivity.
Defined.

(** C3, as stated, on a text without an encoding: the lone surrogate
    U+D800. The first [encrypt] creates key [01] and raises
    [UnicodeEncodeError] at [data.encode()]; it returns no token, so
    there is nothing that [decrypt] could turn back into the text, and
    no rotation lies between. *)
Lemma decrypt_encrypt_surrogate :
  snd (encrypt SecretManager.__init__ first_call [0xD800%N])
  = Raise UnicodeEncodeError
  ∧ _fernet (fst (encrypt SecretManager.__init__ first_call [0xD800%N]))
    = Some [x01]
  ∧ ¬ (∃ token,
         snd (encrypt SecretManager.__init__ first_call [0xD800%N]) = Ok token
         ∧ decrypt (fst (encrypt SecretManager.__init__ first_call [0xD800%N])) token
           = Ok [0xD800%N]).
Proof.
  assert (Hraise : snd (encrypt SecretManager.__init__ first_call [0xD800%N])
                   = Raise UnicodeEncodeError) by (vm_compute; reflexivity).
  split; [ exact Hraise | ].
  split; [ vm_compute; reflexivity | ].
  intros (token & Htoken & _). rewrite Hraise in Htoken. discriminate Htoken.
Qed.

(** The default configuration with a rotation interval of one day. *)
Definition daily : SecurityConfig.t := {|
  SecurityConfig.key_rotation := {|
    KeyRotation.enabled := true;
    KeyRotation.interval := days 1;
    KeyRotation.algorithm := py "AES-256-GCM";
    KeyRotation.key_length := 256
  |};
  SecurityConfig.password_policy := PasswordPolicy.default;
  SecurityConfig.rate_limit := RateLimit.default;
  SecurityConfig.max_login_attempts := 5;
  SecurityConfig.lockout_duration := minutes 15
|}.

(** The service with that configuration and a new manager. *)
Definition daily_service : @SecurityService.t hex_fernet :=
  SecurityService.__init__ daily SecretManager.__init__.

(** An [encrypt] twenty-nine days after the first. *)
Definition day_29 : @SecretManager.reads hex_fernet :=
  @SecretManager.Build_reads hex_fernet (days 29) [x02] (days 29) tt.

(** C6 on a service configured with a rotation interval of one day. Its
    manager encrypts at 0, which creates key [01], and again twenty-nine
    days later: the rotation check of the second call keeps key [01],
    whose age is then twenty-nine days, more than the configured day.
    The manager tests against its own thirty days. *)
Lemma encrypt_ignores_configured_interval :
  KeyRotation.interval (SecurityConfig.key_rotation (config daily_service)) = days 1
  ∧ fst (encrypt (secret_manager daily_service) first_call (py "x")) = after_first
  ∧ _should_rotate after_first (now_check day_29) = false
  ∧ _fernet (fst (encrypt after_first day_29 (py "y"))) = Some [x01]
  ∧ _key_created (fst (encrypt after_first day_29 (py "y"))) = Some 0
  ∧ last_reading after_first day_29 = days 29
  ∧ days 1 < days 29 - 0.
Proof. repeat split; vm_compute; reflexivity. Qed.

(** [decrypt_after_rotation]: the token of the first call decrypts while
    key [01] is held, and no longer after the call a month later. *)
Lemma decrypt_after_rotation_witness :
  ∃ token,
    snd (encrypt SecretManager.__init__ first_call (py "x")) = Ok token
    ∧ decrypt after_first token = Ok (py "x")
    ∧ _fernet after_month = Some [x02]
    ∧ decrypt after_month token = Raise InvalidToken.
Proof.
  destruct (decrypt_after_rotation (cipher := hex_fernet) (authentic := hex_fernet_authentic)
              [] first_call (py "x") ["x"%byte])
    as (k & token & Hk & Htoken & Hsame & Hother).
  - vm_compute. reflexivity.
  - exists token. split; [ exact Htoken | ].
    split; [ apply Hsame; exact Hk | ].
    assert (Hk1 : k = [x01]) by (vm_compute in Hk; congruence).
    apply (Hother after_first next_month (py "y")).
    + vm_compute. reflexivity.
    + rewrite Hk1. vm_compute. discriminate.
Defined.

(** C1, on a run with a rotation. A token is made under key [01]; a month later
    [encrypt] rotates to key [02] and key [01] is gone. [decrypt] of the
    token then neither returns the text nor reports a missing key (the
    only such error of the source is the [ValueError] of a manager
    without any key): it raises [InvalidToken], the error of a failed
    integrity check. *)
Lemma decrypt_after_rotation_invalid_token :
  ∃ token,
    snd (encrypt SecretManager.__init__ first_call (py "x")) = Ok token
    ∧ _fernet after_first = Some [x01]
    ∧ decrypt after_first token = Ok (py "x")
    ∧ _should_rotate after_first (now_check next_month) = true
    ∧ _fernet after_month = Some [x02]
    ∧ decrypt after_month token = Raise InvalidToken
    ∧ decrypt after_month token ≠ Ok (py "x")
    ∧ decrypt after_month token
      ≠ Raise (ValueError (py "No encryption key available")).
Proof.
  eexists. split; [ vm_compute; reflexivity | ].
  repeat split; try (vm_compute; reflexivity); vm_compute; discriminate.
Qed.

(** [constant_time_compare_digests] on ["abc"] against itself and
    against ["abd"]. *)
Lemma constant_time_compare_digests_witness :
  constant_time_compare (service 100) (py "abc") (py "abc") = Ok true
  ∧ constant_time_compare (service 100) (py "abc") (py "abd") = Ok false.
Proof.
  split.
  - apply (constant_time_compare_digests (service 100) (py "abc") (py "abc")
             ["a"; "b"; "c"]%byte ["a"; "b"; "c"]%byte eq_refl eq_refl).
    reflexivity.
  - apply (constant_time_compare_digests (service 100) (py "abc") (py "abd")
             ["a"; "b"; "c"]%byte ["a"; "b"; "d"]%byte eq_refl eq_refl).
    vm_compute. discriminate.
Defined.

(** C7, for texts that differ. Were [constant_time_compare] to return
    [true] for identical texts only, the digest would be injective on the
    2^257 texts of 257 letters [a] and [b]; there are only 2^256 digests. *)
Lemma constant_time_compare_collision :
  ¬ (∀ val1 val2 b1 b2,
       encode val1 = Ok b1 →
       encode val2 = Ok b2 →
       constant_time_compare (service 100) val1 val2 = Ok true ↔ val1 = val2).
Proof.
  intros Hclaim.
  assert (Hascii : ∀ w, w ∈ words [97%N; 98%N] 257 →
                        encode w = Ok (Utf8.byte_of_N <$> w)).
  { intros w Hw%elem_of_words_inv. unfold encode.
    rewrite encode_chars_ascii; [ done | ].
    eapply Forall_impl; [ exact Hw | ]. cbn.
    intros c [-> | [-> | []%elem_of_nil]%elem_of_cons]%elem_of_cons; lia. }
  apply (no_injection (λ w, Sha256.sha256 (Utf8.byte_of_N <$> w))
           (words [97%N; 98%N] 257) (words all_bytes 32)).
  - apply NoDup_words. apply NoDup_cons. split; [ | apply NoDup_singleton ].
    intros [=]%list_elem_of_singleton.
  - intros w _. apply elem_of_words; [ apply sha256_length | ].
    apply Forall_forall. intros b _. apply elem_of_all_bytes.
  - apply more_texts_than_digests.
  - intros w1 w2 Hw1 Hw2 Hdigest.
    apply (Hclaim w1 w2 _ _ (Hascii w1 Hw1) (Hascii w2 Hw2)).
    rewrite (constant_time_compare_encoded _ _ _ _ _ (Hascii w1 Hw1) (Hascii w2 Hw2)).
    f_equal. by apply compare_digest_eq.
Qed.

End examples.

(** ** The further theorems on concrete inputs *)

(** [str.isspace] on ASCII. *)
Definition ascii_spaces : SpaceTable := {|
  isspace c := in_range 9 13 c || in_range 28 32 c
|}.

Section more_examples.
Import SecretManager SecurityService.

Example token_three_bytes :
  generate_token (service 100) 3 [x00; x10; x83] = Ok (py "ABCD").
Proof. reflexivity. Qed.

Example token_one_byte :
  generate_token (service 100) 1 [xff] = Ok (py "_w").
Proof. reflexivity. Qed.

Example token_two_bytes :
  generate_token (service 100) 2 [xfb; xef] = Ok (py "--8").
Proof. reflexivity. Qed.

(** [validate_password_extend]: a password the default policy accepts,
    inside a longer one. *)
Lemma validate_password_extend_witness :
  @PasswordPolicy.validate_password ascii_tables PasswordPolicy.default
    (py "Correct-Horse-1") = (true, None)
  ∧ @PasswordPolicy.validate_password ascii_tables PasswordPolicy.default
      (py "my " ++ py "Correct-Horse-1" ++ py " password") = (true, None).
Proof.
  split; [ reflexivity | ].
  apply (validate_password_extend (tables := ascii_tables) PasswordPolicy.default
           (py "my ") (py "Correct-Horse-1") (py " password")).
  reflexivity.
Defined.

(** [validate_password_Permutation]: two characters swapped. *)
Lemma validate_password_Permutation_witness :
  py "a1" ≡ₚ py "1a"
  ∧ @PasswordPolicy.validate_password ascii_tables PasswordPolicy.default (py "a1")
    = @PasswordPolicy.validate_password ascii_tables PasswordPolicy.default (py "1a").
Proof.
  assert (Hswap : py "a1" ≡ₚ py "1a") by apply perm_swap.
  split; [ exact Hswap | ].
  exact (validate_password_Permutation (tables := ascii_tables)
           PasswordPolicy.default (py "a1") (py "1a") Hswap).
Defined.

(** [check_rate_limit_count_bounds]: four requests against a limit of
    two leave a count of two. *)
Lemma check_rate_limit_count_bounds_witness :
  _failed_attempts
    (fst (check_rate_limit_trace (service 2)
            [(nodes, address, 0); (nodes, address, 1);
             (nodes, address, 2); (nodes, address, 3)]))
    !! rate_key nodes address = Some {| count := 2; timestamp := 0 |}
  ∧ 1 ≤ 2 ∧ 2 ≤ Z.max 1 2.
Proof.
  split; [ vm_compute; reflexivity | ].
  apply (check_rate_limit_count_bounds (cipher := hex_fernet)
           (limited 2) SecretManager.__init__
           [(nodes, address, 0); (nodes, address, 1);
            (nodes, address, 2); (nodes, address, 3)]
           (rate_key nodes address) {| count := 2; timestamp := 0 |}).
  vm_compute. reflexivity.
Defined.

(** [check_rate_limit_keeps_live_only]: a call twenty minutes after the
    first request; the entry of the first request is gone, the entry
    that is stored dates from the call. *)
Lemma check_rate_limit_keeps_live_only_witness :
  _failed_attempts
    (fst (check_rate_limit (fst (check_rate_limit (service 2) nodes address 0))
            (py "/api/v1/edges") address (minutes 20)))
    !! rate_key nodes address = None
  ∧ minutes 20 - minutes 20 < minutes 15.
Proof.
  split; [ vm_compute; reflexivity | ].
  apply (check_rate_limit_keeps_live_only (cipher := hex_fernet)
           (fst (check_rate_limit (service 2) nodes address 0))
           (py "/api/v1/edges") address (minutes 20)
           (rate_key (py "/api/v1/edges") address)
           {| count := 1; timestamp := minutes 20 |}).
  - vm_compute. reflexivity.
  - apply (bool_decide_unpack _). vm_compute. exact I.
  - vm_compute. reflexivity.
Defined.

(** [check_rate_limit_shared_key]: the address [::1] asking for
    [/a:/b] and the address [::1:/a] asking for [/b]. *)
Lemma check_rate_limit_shared_key_witness :
  check_rate_limit (service 2) (py "/a" ++ py ":" ++ py "/b") (py "::1") 0
  = check_rate_limit (service 2) (py "/b") (py "::1" ++ py ":" ++ py "/a") 0.
Proof.
  apply (check_rate_limit_shared_key (cipher := hex_fernet)
           (service 2) (py "::1") (py "/a") (py "/b") 0).
  - apply (bool_decide_unpack _). vm_compute. exact I.
  - apply (bool_decide_unpack _). vm_compute. exact I.
Defined.

(** Traffic of one quarter of an hour: the address asks three times for
    [nodes], between requests for a skipped path and from another
    address. *)
Definition traffic : list request :=
  [(nodes, address, 1); (py "/health", address, 2);
   (nodes, py "5.6.7.8", 3); (nodes, address, 4)].

(** [check_rate_limit_quota] on this traffic, with a limit of two. *)
Lemma check_rate_limit_quota_witness :
  passed [py "/health"; py "/metrics"] (rate_key nodes address)
    ((nodes, address, 0) :: traffic)
    (snd (check_rate_limit_trace (service 2) ((nodes, address, 0) :: traffic)))
  = Nat.min
      (asked [py "/health"; py "/metrics"] (rate_key nodes address)
         ((nodes, address, 0) :: traffic))
      2.
Proof.
  apply (check_rate_limit_quota (cipher := hex_fernet) (service 2) nodes address 0 traffic).
  - apply (bool_decide_unpack _). vm_compute. exact I.
  - vm_compute. discriminate.
  - vm_compute. reflexivity.
  - repeat constructor.
Defined.

(** A text with a surrogate code point. *)
Definition lone_surrogate : str := [0xD800%N].

(** [encrypt_raises_only_encode_error] on that text. *)
Lemma encrypt_raises_only_encode_error_witness :
  snd (encrypt SecretManager.__init__ first_call lone_surrogate)
  = Raise UnicodeEncodeError
  ∧ encode lone_surrogate = Raise UnicodeEncodeError.
Proof.
  assert (Hraise : snd (encrypt (encrypt_all SecretManager.__init__ []) first_call
                          lone_surrogate) = Raise UnicodeEncodeError)
    by (vm_compute; reflexivity).
  split; [ exact Hraise | ].
  exact (proj2 (encrypt_raises_only_encode_error (cipher := hex_fernet)
                  [] first_call lone_surrogate UnicodeEncodeError Hraise)).
Defined.

(** [encrypt_rotates_before_failing]: a month after the first call,
    [encrypt] of that text raises and leaves key [02]. *)
Lemma encrypt_rotates_before_failing_witness :
  snd (encrypt after_first next_month lone_surrogate) = Raise UnicodeEncodeError
  ∧ _fernet (fst (encrypt after_first next_month lone_surrogate)) = Some [x02].
Proof.
  destruct (encrypt_rotates_before_failing (cipher := hex_fernet)
              [(first_call, py "x")] next_month lone_surrogate 0xD800%N)
    as (Hraise & Hrotated).
  - apply list_elem_of_here.
  - reflexivity.
  - split; [ exact Hraise | ].
    apply Hrotated. vm_compute. reflexivity.
Defined.

(** An [encrypt] thirty days to the microsecond after the first. *)
Definition thirtieth_day : @SecretManager.reads hex_fernet :=
  @SecretManager.Build_reads hex_fernet (days 30) [x02] (days 30) tt.

(** [encrypt_rotation_boundary]: that call keeps key [01]. *)
Lemma encrypt_rotation_boundary_witness :
  _key_created after_first = Some 0
  ∧ fst (encrypt after_first thirtieth_day (py "y")) = after_first.
Proof.
  assert (Hcreated : _key_created (encrypt_all SecretManager.__init__ [(first_call, py "x")])
                     = Some 0) by (vm_compute; reflexivity).
  split; [ exact Hcreated | ].
  apply (encrypt_rotation_boundary (cipher := hex_fernet)
           [(first_call, py "x")] thirtieth_day (py "y") 0 Hcreated).
  vm_compute. discriminate.
Defined.

(** [constant_time_compare_returns] on ["abc"] and that text. *)
Lemma constant_time_compare_returns_witness :
  constant_time_compare (service 100) (py "abc") lone_surrogate
  = Raise UnicodeEncodeError.
Proof.
  apply (constant_time_compare_returns (cipher := hex_fernet)
           (service 100) (py "abc") lone_surrogate).
  - repeat (constructor; try reflexivity).
  - repeat (constructor; try reflexivity).
  - apply Exists_app. right. constructor. reflexivity.
Defined.

(** [generate_token_url_safe] on three bytes. *)
Lemma generate_token_url_safe_witness :
  ∃ token,
    generate_token (service 100) 3 [x00; x10; x83] = Ok token
    ∧ Forall (λ c, Base64.url_safe c = true) token
    ∧ len token = (4 * 3 + 2) / 3.
Proof.
  apply (generate_token_url_safe (cipher := hex_fernet) (service 100) 3 [x00; x10; x83]).
  reflexivity.
Defined.

(** [generate_token_inj]: the token [_w] comes from the byte [ff]. *)
Lemma generate_token_inj_witness :
  generate_token (service 100) 1 [xff] = Ok (py "_w")
  ∧ ∀ random, generate_token (service 100) 1 random = Ok (py "_w") → random = [xff].
Proof.
  assert (Htoken : generate_token (service 100) 1 [xff] = Ok (py "_w")) by reflexivity.
  split; [ exact Htoken | ].
  intros random Hrandom.
  exact (generate_token_inj (cipher := hex_fernet) (service 100)
           1 random 1 [xff] (py "_w") Hrandom Htoken).
Defined.

(** A call on which the OpenAI model fails and the Anthropic model
    answers, and a call on which both answer. *)
Definition openai_down : AIService.replies unit := {|
  AIService.first m :=
    match m with
    | AIService.OpenAI => AIService.Failed (py "rate limit")
    | AIService.Anthropic => AIService.Returned tt
    end;
  AIService.second _ := AIService.Returned tt
|}.

Definition both_up : AIService.replies unit := {|
  AIService.first _ := AIService.Returned tt;
  AIService.second _ := AIService.Returned tt
|}.

(** A call whose first attempt is cancelled. *)
Definition cancelled : AIService.replies unit := {|
  AIService.first _ := AIService.Aborted AIService.CancelledError;
  AIService.second _ := AIService.Returned tt
|}.

(** The cancellation goes through: no fallback, and the chain stays on
    the OpenAI model. *)
Example enrich_node_cancelled :
  AIService.enrich_node AIService.__init__ cancelled
  = (AIService.__init__, AIService.Propagate AIService.CancelledError,
     [AIService.OpenAI]).
Proof. reflexivity. Qed.

(** [enrich_node_fallback_sticks]: after one failure of the OpenAI
    model, two calls that it would answer go to Anthropic. *)
Lemma enrich_node_fallback_sticks_witness :
  (AIService.enrich_nodes
     (AIService.enrich_node AIService.__init__ openai_down).1.1
     [both_up; both_up]).2
  = [AIService.Anthropic; AIService.Anthropic]
  ∧ Forall (λ m, m = AIService.Anthropic)
      (AIService.enrich_nodes
         (AIService.enrich_node AIService.__init__ openai_down).1.1
         [both_up; both_up]).2.
Proof.
  split; [ reflexivity | ].
  apply (enrich_node_fallback_sticks AIService.__init__ openai_down
           (py "rate limit") [both_up; both_up]).
  reflexivity.
Defined.

(** Three pins, the first package pinned twice. *)
Definition pins : list (str * str) :=
  [(py "fastapi", py "0.104.1"); (py "neo4j", py "5.14.0");
   (py "fastapi", py "0.105.0")].

(** [_read_requirements_pins] on these. *)
Lemma _read_requirements_pins_witness :
  @DependencyManager._read_requirements ascii_spaces
    (@DependencyManager.pin_line <$> pins)
  = Ok (list_to_map (reverse pins)).
Proof.
  apply (_read_requirements_pins (spaces := ascii_spaces) pins).
  - reflexivity.
  - reflexivity.
  - repeat (constructor; try done).
Defined.

(** A comment and a requirement with a range, as lines of the file. *)
Definition comment_line : str := py "# web" ++ [10%N].
Definition range_line : str := py "requests>=2.31" ++ [10%N].

(** [_read_requirements_skips] on a comment between two pins. *)
Lemma _read_requirements_skips_witness :
  @DependencyManager._read_requirements ascii_spaces
    ([DependencyManager.pin_line (py "neo4j", py "5.14.0")]
     ++ comment_line :: [DependencyManager.pin_line (py "fastapi", py "0.105.0")])
  = @DependencyManager._read_requirements ascii_spaces
      ([DependencyManager.pin_line (py "neo4j", py "5.14.0")]
       ++ [DependencyManager.pin_line (py "fastapi", py "0.105.0")]).
Proof.
  apply (_read_requirements_skips (spaces := ascii_spaces)).
  right. reflexivity.
Defined.

(** [_read_requirements_unpinned] on a range after a pin. *)
Lemma _read_requirements_unpinned_witness :
  ∃ message,
    @DependencyManager._read_requirements ascii_spaces
      [DependencyManager.pin_line (py "neo4j", py "5.14.0"); range_line]
    = Raise (ValueError message).
Proof.
  apply (_read_requirements_unpinned (spaces := ascii_spaces)
           [DependencyManager.pin_line (py "neo4j", py "5.14.0"); range_line]
           range_line).
  - apply list_elem_of_further, list_elem_of_here.
  - vm_compute. discriminate.
  - reflexivity.
  - apply has_pin_false. reflexivity.
Defined.

End more_examples.
